(** * Concordium schema deserialization ([src/index.ts])

    A shallow embedding of the TypeScript decoder together with the parts of
    the Node.js platform it calls ([stream.Readable.read], [Buffer] reads and
    [util.TextDecoder]), followed by the properties proved about it. *)

From stdpp Require Import base option list numbers strings gmap.
From Stdlib Require Import Strings.Byte NArith.

Local Open Scope N_scope.

(** ** The Node.js platform *)

Module Node.

(** A [Buffer] is a finite byte sequence. *)
Definition Buffer := list byte.

(** [buf.readUInt8(0)]. [None] is the RangeError raised when offset 0 lies
    outside the buffer. *)
Definition readUInt8 (buf : Buffer) : option N :=
  match buf with
  | b :: _ => Some (Byte.to_N b)
  | [] => None
  end.

(** The unsigned 32-bit number whose bytes are [b0], least significant, to
    [b3]. *)
Definition uint32LE (b0 b1 b2 b3 : byte) : N :=
  Byte.to_N b0 + Byte.to_N b1 * 2 ^ 8
  + Byte.to_N b2 * 2 ^ 16 + Byte.to_N b3 * 2 ^ 24.

(** [buf.readUInt32LE(0)]. [None] is the RangeError raised when the buffer
    holds fewer than four bytes. *)
Definition readUInt32LE (buf : Buffer) : option N :=
  match buf with
  | b0 :: b1 :: b2 :: b3 :: _ => Some (uint32LE b0 b1 b2 b3)
  | _ => None
  end.

(** A byte-mode [Readable] in paused mode, as a synchronous caller sees it:
    the chunks the underlying resource has pushed and nobody has consumed yet
    (oldest first), and whether end of input has been signalled. The resource
    answers a request for more data on a later turn of the event loop, as the
    file stream of the README does, so nothing is pushed while a decoder
    runs. *)
Record Readable := mkReadable {
  buffer : list Buffer;
  ended : bool
}.

(** [state.length]: the number of buffered bytes. *)
Definition byteLength (s : Readable) : nat := length (concat (buffer s)).

(** [readable.push(chunk)]: one delivery from the underlying resource. An
    empty chunk is not buffered, and nothing is buffered after end of input. *)
Definition push (chunk : Buffer) (s : Readable) : Readable :=
  if ended s then s
  else match chunk with
       | [] => s
       | _ :: _ => mkReadable (buffer s ++ [chunk]) false
       end.

(** [readable.push(null)]: the resource signals end of input. *)
Definition push_null (s : Readable) : Readable := mkReadable (buffer s) true.

(** A fresh stream that has received the given deliveries, in order. *)
Definition delivered (chunks : list Buffer) : Readable :=
  foldl (fun s c => push c s) (mkReadable [] false) chunks.

(** [BufferList.consume(n)]: take [n] bytes off the front of the chunk list,
    splitting the chunk in which the [n]-th byte falls. *)
Fixpoint consume (n : nat) (chunks : list Buffer) {struct chunks}
  : Buffer * list Buffer :=
  match chunks with
  | [] => ([], [])
  | c :: cs =>
      if (n =? 0)%nat then ([], chunks)
      else if (n <? length c)%nat then (take n c, drop n c :: cs)
      else let '(bs, rest) := consume (n - length c) cs in (c ++ bs, rest)
  end.

(** [howMuchToRead(n, state)] for [n > 0]: the request itself when that many
    bytes are buffered; everything that is left once the stream has ended;
    nothing otherwise. *)
Definition howMuchToRead (n : nat) (s : Readable) : nat :=
  if (n <=? byteLength s)%nat then n
  else if ended s then byteLength s
  else 0%nat.

(** [readable.read(n)] for [n > 0]. [None] is JavaScript's [null]. *)
Definition read (n : nat) (s : Readable) : option Buffer * Readable :=
  let m := howMuchToRead n s in
  if (m =? 0)%nat then (None, s)
  else let '(ret, rest) := consume m (buffer s) in
       (Some ret, mkReadable rest (ended s)).

(** A JavaScript string produced by a decoder, as its sequence of Unicode
    scalar values. *)
Definition JSString := list N.

(** An ASCII literal as a JavaScript string. *)
Definition js (s : string) : JSString :=
  map Ascii.N_of_ascii (String.list_ascii_of_string s).

(** State of the UTF-8 decoder of the Encoding standard. *)
Record Utf8Decoder := mkUtf8 {
  code_point : N;
  bytes_seen : N;
  bytes_needed : N;
  lower_boundary : N;
  upper_boundary : N
}.

Definition utf8_init : Utf8Decoder := mkUtf8 0 0 0 0x80 0xBF.

(** The handler when no continuation byte is outstanding. *)
Definition utf8_lead (b : N) : Utf8Decoder * list N :=
  if b <=? 0x7F then (utf8_init, [b])
  else if (0xC2 <=? b) && (b <=? 0xDF) then
    (mkUtf8 (N.land b 0x1F) 0 1 0x80 0xBF, [])
  else if (0xE0 <=? b) && (b <=? 0xEF) then
    (mkUtf8 (N.land b 0xF) 0 2
       (if b =? 0xE0 then 0xA0 else 0x80)
       (if b =? 0xED then 0x9F else 0xBF), [])
  else if (0xF0 <=? b) && (b <=? 0xF4) then
    (mkUtf8 (N.land b 0x7) 0 3
       (if b =? 0xF0 then 0x90 else 0x80)
       (if b =? 0xF4 then 0x8F else 0xBF), [])
  else (utf8_init, [0xFFFD]).

(** One step of the handler. A byte outside the expected range ends the
    pending sequence with U+FFFD and is then handled afresh. *)
Definition utf8_handler (d : Utf8Decoder) (b : N) : Utf8Decoder * list N :=
  if bytes_needed d =? 0 then utf8_lead b
  else if (b <? lower_boundary d) || (upper_boundary d <? b) then
    let '(d', out) := utf8_lead b in (d', 0xFFFD :: out)
  else
    let cp := N.lor (N.shiftl (code_point d) 6) (N.land b 0x3F) in
    let seen := bytes_seen d + 1 in
    if seen =? bytes_needed d then (utf8_init, [cp])
    else (mkUtf8 cp seen (bytes_needed d) 0x80 0xBF, []).

Fixpoint utf8_run (d : Utf8Decoder) (bytes : list byte) : list N :=
  match bytes with
  | [] => if bytes_needed d =? 0 then [] else [0xFFFD]
  | b :: rest =>
      let '(d', out) := utf8_handler d (Byte.to_N b) in out ++ utf8_run d' rest
  end.

(** [new TextDecoder().decode(bytes)]: UTF-8, malformed input replaced by
    U+FFFD, a leading byte order mark dropped. *)
Definition TextDecoder_decode (bytes : list byte) : JSString :=
  match utf8_run utf8_init bytes with
  | c :: s => if c =? 0xFEFF then s else c :: s
  | [] => []
  end.

(** [Uint8Array.from(numbers)]: every number is stored modulo 256. *)
Definition Uint8Array_from (numbers : list N) : list byte :=
  map (fun n => default Byte.x00 (Byte.of_N (n mod 256))) numbers.

End Node.

Import Node.

(** ** Exceptions and the decoder monad *)

(** What a call can throw. *)
Inductive Exn : Type :=
| TypeError_null
    (** [source.read(n)] returned [null] and a method was called on it *)
| RangeError_bounds
    (** a [Buffer] read reached past the end of a short buffer *)
| Error_unsupported_type_tag (tag : N)
| Error_unsupported_fields_tag (tag : N)
| Error_unsupported_option_tag (tag : N).

(** How a call ends. [OutOfFuel] belongs to the model only: the recursion
    budget of [deserialType_fuel] ran out. *)
Inductive Outcome (T : Type) : Type :=
| Return (v : T)
| Throw (e : Exn)
| OutOfFuel.

Arguments Return {T} v.
Arguments Throw {T} e.
Arguments OutOfFuel {T}.

(** [interface Deserial<T> { (source: Readable): T }]. The stream is mutated
    by the call, also when the call throws. *)
Definition Deserial (T : Type) : Type := Readable -> Outcome T * Readable.

Definition ret {T} (v : T) : Deserial T := fun source => (Return v, source).

Definition throw {T} (e : Exn) : Deserial T := fun source => (Throw e, source).

Definition bind {A B} (m : Deserial A) (k : A -> Deserial B) : Deserial B :=
  fun source =>
    match m source with
    | (Return a, source') => k a source'
    | (Throw e, source') => (Throw e, source')
    | (OutOfFuel, source') => (OutOfFuel, source')
    end.

Notation "x <- m ;; k" := (bind m (fun x => k))
  (at level 100, m at next level, right associativity).

(** ** Primitive decoders *)

(** [source.read(1).readUInt8(0)] *)
Definition deserialUint8 : Deserial N := fun source =>
  match read 1 source with
  | (None, source') => (Throw TypeError_null, source')
  | (Some buf, source') =>
      match readUInt8 buf with
      | Some v => (Return v, source')
      | None => (Throw RangeError_bounds, source')
      end
  end.

(** [source.read(4).readUInt32LE(0)] *)
Definition deserialUint32 : Deserial N := fun source =>
  match read 4 source with
  | (None, source') => (Throw TypeError_null, source')
  | (Some buf, source') =>
      match readUInt32LE buf with
      | Some v => (Return v, source')
      | None => (Throw RangeError_bounds, source')
      end
  end.

(** ** The data model *)

(** [enum SizeLength] *)
Module SizeLength.
Inductive t : Type := U8 | U16 | U32 | U64.

Definition to_N (x : t) : N :=
  match x with U8 => 0 | U16 => 1 | U32 => 2 | U64 => 3 end.

Definition of_N (n : N) : option t :=
  match n with
  | 0 => Some U8 | 1 => Some U16 | 2 => Some U32 | 3 => Some U64
  | _ => None
  end.
End SizeLength.

(** [enum TypeTag], numbered from [Unit = 0] in declaration order. *)
Module TypeTag.
Inductive t : Type :=
| Unit | Bool | U8 | U16 | U32 | U64 | I8 | I16 | I32 | I64
| Amount | AccountAddress | ContractAddress | Timestamp | Duration
| Pair | List | Set_ | Map | Array | Struct | Enum | String
| U128 | I128 | ContractName | ReceiveName.

Definition to_N (x : t) : N :=
  match x with
  | Unit => 0 | Bool => 1 | U8 => 2 | U16 => 3 | U32 => 4 | U64 => 5
  | I8 => 6 | I16 => 7 | I32 => 8 | I64 => 9
  | Amount => 10 | AccountAddress => 11 | ContractAddress => 12
  | Timestamp => 13 | Duration => 14
  | Pair => 15 | List => 16 | Set_ => 17 | Map => 18 | Array => 19
  | Struct => 20 | Enum => 21 | String => 22
  | U128 => 23 | I128 => 24 | ContractName => 25 | ReceiveName => 26
  end.

Definition of_N (n : N) : option t :=
  match n with
  | 0 => Some Unit | 1 => Some Bool | 2 => Some U8 | 3 => Some U16
  | 4 => Some U32 | 5 => Some U64 | 6 => Some I8 | 7 => Some I16
  | 8 => Some I32 | 9 => Some I64
  | 10 => Some Amount | 11 => Some AccountAddress
  | 12 => Some ContractAddress | 13 => Some Timestamp | 14 => Some Duration
  | 15 => Some Pair | 16 => Some List | 17 => Some Set_ | 18 => Some Map
  | 19 => Some Array | 20 => Some Struct | 21 => Some Enum
  | 22 => Some String | 23 => Some U128 | 24 => Some I128
  | 25 => Some ContractName | 26 => Some ReceiveName
  | _ => None
  end.
End TypeTag.

(** [enum FieldsTag] *)
Module FieldsTag.
Inductive t : Type := Named | Unnamed | None.

Definition to_N (x : t) : N :=
  match x with Named => 0 | Unnamed => 1 | None => 2 end.

Definition of_N (n : N) : option t :=
  match n with
  | 0 => Some Named | 1 => Some Unnamed | 2 => Some None
  | _ => Datatypes.None
  end.
End FieldsTag.

(** [enum OptionTag] *)
Module OptionTag.
Inductive t : Type := None | Some_.

Definition to_N (x : t) : N := match x with None => 0 | Some_ => 1 end.

Definition of_N (n : N) : option t :=
  match n with
  | 0 => Some None | 1 => Some Some_
  | _ => Datatypes.None
  end.
End OptionTag.

(** [type Type] and [type Fields], one constructor per alternative of the
    union. [sizeLength] holds the number that was read: the [SizeLength]
    annotation exists at compile time only. *)
Inductive Type_ : Type :=
| Type_scalar (typeTag : TypeTag.t)
| Type_Pair (ofLeft ofRight : Type_)
| Type_ListSet (typeTag : TypeTag.t) (sizeLength : N) (of_ : Type_)
| Type_Map (sizeLength : N) (ofKeys ofValues : Type_)
| Type_Array (size : N) (of_ : Type_)
| Type_Struct (fields : Fields)
| Type_Enum (variants : list (JSString * Fields))
| Type_String (typeTag : TypeTag.t) (sizeLength : N)
with Fields : Type :=
| Fields_Named (contents : list (JSString * Type_))
| Fields_Unnamed (contents : list Type_)
| Fields_None.

(** [type Contract] *)
Record Contract := mkContract {
  state : option Type_;
  init : option Type_;
  receive : gmap JSString Type_
}.

(** [type Module = Record<string, Contract>] *)
Definition Module_ : Type := gmap JSString Contract.

(** ** Combinators *)

(** The [for] loop of [deserialArrayFn], with [n] iterations left and [arr]
    the array built so far; [arr.push] appends at the end. *)
Fixpoint deserialArrayFn_loop {T} (deserial : Deserial T) (n : nat)
    (arr : list T) : Deserial (list T) :=
  match n with
  | O => ret arr
  | S n' => x <- deserial ;; deserialArrayFn_loop deserial n' (arr ++ [x])
  end.

Definition deserialArrayFn {T} (deserial : Deserial T) : Deserial (list T) :=
  len <- deserialUint32 ;;
  deserialArrayFn_loop deserial (N.to_nat len) [].

(** The [for] loop of [deserialMapFn]. The object, which starts as [{}], is
    the finite map of the properties assigned so far, and [obj[k] = v]
    defines or overwrites the property [k]. (The accessor key ["__proto__"],
    which the platform does not store as a property, is outside this
    model.) *)
Fixpoint deserialMapFn_loop {K} `{Countable K} {V}
    (deserialKey : Deserial K) (deserialValue : Deserial V) (n : nat)
    (obj : gmap K V) : Deserial (gmap K V) :=
  match n with
  | O => ret obj
  | S n' =>
      k <- deserialKey ;;
      v <- deserialValue ;;
      deserialMapFn_loop deserialKey deserialValue n' (<[k := v]> obj)
  end.

Definition deserialMapFn {K} `{Countable K} {V}
    (deserialKey : Deserial K) (deserialValue : Deserial V)
  : Deserial (gmap K V) :=
  len <- deserialUint32 ;;
  deserialMapFn_loop deserialKey deserialValue (N.to_nat len) ∅.

(** [T | null] is [option T]. *)
Definition deserialOptionFn {T} (deserial : Deserial T) : Deserial (option T) :=
  tag <- deserialUint8 ;;
  match OptionTag.of_N tag with
  | Some OptionTag.None => ret None
  | Some OptionTag.Some_ => x <- deserial ;; ret (Some x)
  | None => throw (Error_unsupported_option_tag tag)
  end.

Definition deserialTupleFn {L R} (deserialLeft : Deserial L)
    (deserialRight : Deserial R) : Deserial (L * R) :=
  left <- deserialLeft ;;
  right <- deserialRight ;;
  ret (left, right).

Definition deserialString : Deserial JSString :=
  bytes <- deserialArrayFn deserialUint8 ;;
  let uint8Array := Uint8Array_from bytes in
  ret (TextDecoder_decode uint8Array).

(** ** The grammar *)

(** [deserialType] and [deserialFields] call each other; [fuel] bounds the
    depth of that mutual recursion. *)
Fixpoint deserialType_fuel (fuel : nat) : Deserial Type_ :=
  match fuel with
  | O => fun source => (OutOfFuel, source)
  | S fuel' =>
      tag <- deserialUint8 ;;
      match TypeTag.of_N tag with
      | Some ((TypeTag.Unit | TypeTag.Bool | TypeTag.U8 | TypeTag.U16
              | TypeTag.U32 | TypeTag.U64 | TypeTag.U128 | TypeTag.I8
              | TypeTag.I16 | TypeTag.I32 | TypeTag.I64 | TypeTag.I128
              | TypeTag.Amount | TypeTag.AccountAddress
              | TypeTag.ContractAddress | TypeTag.Timestamp
              | TypeTag.Duration) as t) =>
          ret (Type_scalar t)
      | Some TypeTag.Pair =>
          ofLeft <- deserialType_fuel fuel' ;;
          ofRight <- deserialType_fuel fuel' ;;
          ret (Type_Pair ofLeft ofRight)
      | Some ((TypeTag.List | TypeTag.Set_) as t) =>
          sizeLength <- deserialUint8 ;;
          of_ <- deserialType_fuel fuel' ;;
          ret (Type_ListSet t sizeLength of_)
      | Some TypeTag.Map =>
          sizeLength <- deserialUint8 ;;
          ofKeys <- deserialType_fuel fuel' ;;
          ofValues <- deserialType_fuel fuel' ;;
          ret (Type_Map sizeLength ofKeys ofValues)
      | Some TypeTag.Array =>
          size <- deserialUint32 ;;
          of_ <- deserialType_fuel fuel' ;;
          ret (Type_Array size of_)
      | Some TypeTag.Struct =>
          fields <- deserialFields_fuel fuel' ;;
          ret (Type_Struct fields)
      | Some TypeTag.Enum =>
          variants <- deserialArrayFn
                        (deserialTupleFn deserialString
                           (deserialFields_fuel fuel')) ;;
          ret (Type_Enum variants)
      | Some ((TypeTag.String | TypeTag.ContractName
              | TypeTag.ReceiveName) as t) =>
          sizeLength <- deserialUint8 ;;
          ret (Type_String t sizeLength)
      | None => throw (Error_unsupported_type_tag tag)
      end
  end
with deserialFields_fuel (fuel : nat) : Deserial Fields :=
  match fuel with
  | O => fun source => (OutOfFuel, source)
  | S fuel' =>
      tag <- deserialUint8 ;;
      match FieldsTag.of_N tag with
      | Some FieldsTag.Named =>
          contents <- deserialArrayFn
                        (deserialTupleFn deserialString
                           (deserialType_fuel fuel')) ;;
          ret (Fields_Named contents)
      | Some FieldsTag.Unnamed =>
          contents <- deserialArrayFn (deserialType_fuel fuel') ;;
          ret (Fields_Unnamed contents)
      | Some FieldsTag.None => ret Fields_None
      | None => throw (Error_unsupported_fields_tag tag)
      end
  end.

(** Every level of the recursion reads its tag byte first, so one unit of
    fuel per buffered byte, and one more, is never used up. *)
Definition deserialType : Deserial Type_ := fun source =>
  deserialType_fuel (S (byteLength source)) source.

Definition deserialFields : Deserial Fields := fun source =>
  deserialFields_fuel (S (byteLength source)) source.

(** The properties of the object literal are evaluated in source order. *)
Definition deserialContract : Deserial Contract :=
  state <- deserialOptionFn deserialType ;;
  init <- deserialOptionFn deserialType ;;
  receive <- deserialMapFn deserialString deserialType ;;
  ret (mkContract state init receive).

Definition deserialModule : Deserial Module_ :=
  deserialMapFn deserialString deserialContract.

(** ** Notions used in the statements *)

(** The buffered bytes, chunk boundaries forgotten. *)
Definition content (s : Readable) : list byte := concat (buffer s).

(** Two streams that hold the same bytes and agree on whether input has
    ended, however the bytes are split into chunks. *)
Definition same_stream (s t : Readable) : Prop :=
  content s = content t ∧ ended s = ended t.


(** A decoder that only ever takes bytes off the front of the stream. *)
Definition shrinks {T} (d : Deserial T) : Prop :=
  ∀ s, (byteLength (snd (d s)) ≤ byteLength s)%nat
       ∧ ended (snd (d s)) = ended s.

(** A decoder that never exhausts the recursion budget on a stream holding
    fewer than [n] bytes. *)
Definition total_under (n : nat) {T} (d : Deserial T) : Prop :=
  ∀ s, (byteLength s < n)%nat → fst (d s) ≠ OutOfFuel.

(** Two decoders that agree on every stream holding at most [n] bytes. *)
Definition agree_upto (n : nat) {T} (d1 d2 : Deserial T) : Prop :=
  ∀ s, (byteLength s ≤ n)%nat → d1 s = d2 s.

(** The failures of a read that found too few bytes: [read] gave [null], or
    it gave the short rest of an ended stream. *)
Definition UnexpectedEndOfInput (e : Exn) : Prop :=
  e = TypeError_null ∨ e = RangeError_bounds.

(** The failures of the three tag switches. *)
Definition MalformedTag (e : Exn) : Prop :=
  ∃ tag, e = Error_unsupported_type_tag tag
         ∨ e = Error_unsupported_fields_tag tag
         ∨ e = Error_unsupported_option_tag tag.

Definition strict_prefix (p c : list byte) : Prop :=
  ∃ q, q ≠ [] ∧ c = p ++ q.

(** A successful run of [d] is determined by the bytes [c] it consumes:
    it succeeds alike on every stream that starts with [c], and on an ended
    stream that stops inside [c] it fails for lack of input. *)
Definition framed {T} (d : Deserial T) : Prop :=
  ∀ s v s', d s = (Return v, s') →
    ∃ c, content s = c ++ content s'
      ∧ (∀ t r, content t = c ++ r →
           ∃ t', d t = (Return v, t') ∧ content t' = r ∧ ended t' = ended t)
      ∧ (∀ t, ended t = true → strict_prefix (content t) c →
           ∃ e t', d t = (Throw e, t') ∧ UnexpectedEndOfInput e).

(** What [deserialUint8] does, by the bytes the stream holds. *)
Inductive Uint8_spec (s : Readable) : Outcome N * Readable → Prop :=
| Uint8_ok b rest s' :
    content s = b :: rest → content s' = rest → ended s' = ended s →
    Uint8_spec s (Return (Byte.to_N b), s')
| Uint8_null :
    content s = [] → Uint8_spec s (Throw TypeError_null, s).

(** What [deserialUint32] does, by the bytes the stream holds. *)
Inductive Uint32_spec (s : Readable) : Outcome N * Readable → Prop :=
| Uint32_ok b0 b1 b2 b3 rest s' :
    content s = b0 :: b1 :: b2 :: b3 :: rest →
    content s' = rest → ended s' = ended s →
    Uint32_spec s (Return (uint32LE b0 b1 b2 b3), s')
| Uint32_null :
    (length (content s) < 4)%nat → ended s = false ∨ content s = [] →
    Uint32_spec s (Throw TypeError_null, s)
| Uint32_short s' :
    (0 < length (content s) < 4)%nat → ended s = true →
    content s' = [] → ended s' = true →
    Uint32_spec s (Throw RangeError_bounds, s').

(** The number of [Type] and [Fields] nodes of a decoded tree. *)
Fixpoint Type_nodes (t : Type_) : nat :=
  match t with
  | Type_scalar _ | Type_String _ _ => 1
  | Type_Pair l r => 1 + Type_nodes l + Type_nodes r
  | Type_ListSet _ _ e | Type_Array _ e => 1 + Type_nodes e
  | Type_Map _ k v => 1 + Type_nodes k + Type_nodes v
  | Type_Struct f => 1 + Fields_nodes f
  | Type_Enum vs => 1 + sum_list_with (fun p => Fields_nodes p.2) vs
  end
with Fields_nodes (f : Fields) : nat :=
  match f with
  | Fields_Named cs => 1 + sum_list_with (fun p => Type_nodes p.2) cs
  | Fields_Unnamed cs => 1 + sum_list_with Type_nodes cs
  | Fields_None => 1
  end.

(** A decoder whose every returned value is paid for, node by node, with
    bytes taken off the stream. *)
Definition pays {T} (size : T → nat) (d : Deserial T) : Prop :=
  ∀ s v s', d s = (Return v, s') →
    (size v + byteLength s' ≤ byteLength s)%nat.

(** A relation between decoders that holds of [ret], [throw] and the two
    primitive reads and is preserved by [bind]. *)
Record Closed (R : ∀ T, Deserial T → Deserial T → Prop) : Prop := {
  closed_ret : ∀ T (v : T), R T (ret v) (ret v);
  closed_throw : ∀ T e, R T (throw e) (throw e);
  closed_bind : ∀ A B (m m' : Deserial A) (k k' : A → Deserial B),
    R A m m' → (∀ a, R B (k a) (k' a)) → R B (bind m k) (bind m' k');
  closed_uint8 : R N deserialUint8 deserialUint8;
  closed_uint32 : R N deserialUint32 deserialUint32
}.

(** [Runs d n s xs s']: [n] calls of [d] in a row, starting on [s], all
    return; [xs] lists what they returned, in call order, and [s'] is the
    stream after the last call. *)
Inductive Runs {T} (d : Deserial T)
  : nat → Readable → list T → Readable → Prop :=
| Runs_O s : Runs d 0 s [] s
| Runs_S n s x s1 xs s2 :
    d s = (Return x, s1) → Runs d n s1 xs s2 → Runs d (S n) s (x :: xs) s2.

(** [Aborts d n s k e s']: of [n] calls of [d] in a row, starting on [s],
    the first [k] return and the next one throws [e], leaving [s']. *)
Inductive Aborts {T} (d : Deserial T)
  : nat → Readable → nat → Exn → Readable → Prop :=
| Aborts_here n s e s1 :
    d s = (Throw e, s1) → Aborts d (S n) s 0 e s1
| Aborts_later n s x s1 k e s2 :
    d s = (Return x, s1) → Aborts d n s1 k e s2 → Aborts d (S n) s (S k) e s2.

(** A decoder that fails for lack of input on every ended stream that stops
    inside the bytes one of its successful runs consumes. *)
Definition fails_when_cut_short {T} (d : Deserial T) : Prop :=
  ∀ s v s' t,
    d s = (Return v, s') → ended t = true →
    strict_prefix (content t)
      (take (byteLength s - byteLength s') (content s)) →
    ∃ e t', d t = (Throw e, t') ∧ UnexpectedEndOfInput e.

(** The object a sequence of assignments [obj[k] = v] builds. *)
Definition Record_of_entries {K} `{Countable K} {V} (kvs : list (K * V))
  : gmap K V :=
  foldl (fun obj kv => <[kv.1 := kv.2]> obj) ∅ kvs.

(** The [switch] of [deserialType] after the tag has been read, with the two
    functions it calls back as parameters. *)
Definition deserialType_cases (dT : Deserial Type_) (dF : Deserial Fields)
    (tag : N) : Deserial Type_ :=
  match TypeTag.of_N tag with
  | Some ((TypeTag.Unit | TypeTag.Bool | TypeTag.U8 | TypeTag.U16
          | TypeTag.U32 | TypeTag.U64 | TypeTag.U128 | TypeTag.I8
          | TypeTag.I16 | TypeTag.I32 | TypeTag.I64 | TypeTag.I128
          | TypeTag.Amount | TypeTag.AccountAddress
          | TypeTag.ContractAddress | TypeTag.Timestamp
          | TypeTag.Duration) as t) =>
      ret (Type_scalar t)
  | Some TypeTag.Pair =>
      ofLeft <- dT ;; ofRight <- dT ;; ret (Type_Pair ofLeft ofRight)
  | Some ((TypeTag.List | TypeTag.Set_) as t) =>
      sizeLength <- deserialUint8 ;; of_ <- dT ;;
      ret (Type_ListSet t sizeLength of_)
  | Some TypeTag.Map =>
      sizeLength <- deserialUint8 ;; ofKeys <- dT ;; ofValues <- dT ;;
      ret (Type_Map sizeLength ofKeys ofValues)
  | Some TypeTag.Array =>
      size <- deserialUint32 ;; of_ <- dT ;; ret (Type_Array size of_)
  | Some TypeTag.Struct => fields <- dF ;; ret (Type_Struct fields)
  | Some TypeTag.Enum =>
      variants <- deserialArrayFn (deserialTupleFn deserialString dF) ;;
      ret (Type_Enum variants)
  | Some ((TypeTag.String | TypeTag.ContractName
          | TypeTag.ReceiveName) as t) =>
      sizeLength <- deserialUint8 ;; ret (Type_String t sizeLength)
  | None => throw (Error_unsupported_type_tag tag)
  end.

(** The [switch] of [deserialFields], likewise. *)
Definition deserialFields_cases (dT : Deserial Type_) (tag : N)
  : Deserial Fields :=
  match FieldsTag.of_N tag with
  | Some FieldsTag.Named =>
      contents <- deserialArrayFn (deserialTupleFn deserialString dT) ;;
      ret (Fields_Named contents)
  | Some FieldsTag.Unnamed =>
      contents <- deserialArrayFn dT ;; ret (Fields_Unnamed contents)
  | Some FieldsTag.None => ret Fields_None
  | None => throw (Error_unsupported_fields_tag tag)
  end.

(** Peels [bind], [ret], [throw] and the primitive reads off a goal
    [R _ d d'], for a relation [R] with [HR : Closed R]. *)
Ltac close HR :=
  repeat match goal with
    | |- ?R _ (bind _ _) (bind _ _) => apply (closed_bind R HR); [|intros ?]
    | |- ?R _ (ret _) _ => apply (closed_ret R HR)
    | |- ?R _ (throw _) _ => apply (closed_throw R HR)
    | |- ?R _ deserialUint8 _ => apply (closed_uint8 R HR)
    | |- ?R _ deserialUint32 _ => apply (closed_uint32 R HR)
    | |- _ => assumption
    end.

(** ** Notions used in the further facts *)

(** A decoder that, however it ends, has taken a prefix of the buffered bytes
    and nothing else: what is left is a suffix of what was there, and the
    end-of-input flag is as it was. *)
Definition consumes_prefix {T} (d : Deserial T) : Prop :=
  ∀ s, content (d s).2 `suffix_of` content s ∧ ended (d s).2 = ended s.

(** A decoder whose successful runs read nothing behind the bytes [c] they
    consume: the same value is returned on every stream that starts with
    [c], whatever follows, and what follows is left untouched. *)
Definition no_lookahead {T} (d : Deserial T) : Prop :=
  ∀ s v s', d s = (Return v, s') →
    ∃ c, content s = c ++ content s'
      ∧ ∀ t r, content t = c ++ r →
          ∃ t', d t = (Return v, t') ∧ content t' = r ∧ ended t' = ended t.


(** The unsupported-tag error [e] reports the byte [b], and [b] names no
    member of the enumeration the error is about. *)
Definition offending_tag (e : Exn) (b : byte) : Prop :=
  (e = Error_unsupported_type_tag (Byte.to_N b) ∧ 26 < Byte.to_N b)
  ∨ (e = Error_unsupported_fields_tag (Byte.to_N b) ∧ 2 < Byte.to_N b)
  ∨ (e = Error_unsupported_option_tag (Byte.to_N b) ∧ 1 < Byte.to_N b).

(** A decoder whose unsupported-tag errors report the last byte taken off the
    stream before the throw. *)
Definition pinpoints_tag {T} (d : Deserial T) : Prop :=
  ∀ s e s', d s = (Throw e, s') → MalformedTag e →
    ∃ c b, content s = c ++ b :: content s' ∧ offending_tag e b.

(** Both at once. *)
Definition reports_tags {T} (d : Deserial T) : Prop :=
  consumes_prefix d ∧ pinpoints_tag d.

(** A property of decoders that holds of [ret] and the two primitive reads
    and is preserved by [bind]; nothing is asked of [throw]. *)
Record Closed_reads (P : ∀ T, Deserial T → Prop) : Prop := {
  reads_ret : ∀ T (v : T), P T (ret v);
  reads_bind : ∀ A B (m : Deserial A) (k : A → Deserial B),
    P A m → (∀ a, P B (k a)) → P B (bind m k);
  reads_uint8 : P N deserialUint8;
  reads_uint32 : P N deserialUint32
}.

(** Peels [bind], [ret] and the primitive reads off a goal [P _ d], for a
    property [P] with [HP : Closed_reads P]. *)
Ltac close_reads HP :=
  repeat match goal with
    | |- ?P _ (bind _ _) => apply (reads_bind P HP); [|intros ?]
    | |- ?P _ (ret _) => apply (reads_ret P HP)
    | |- ?P _ deserialUint8 => apply (reads_uint8 P HP)
    | |- ?P _ deserialUint32 => apply (reads_uint32 P HP)
    | |- _ => assumption
    end.

(** A decoder that returns only values with the property [Q]. *)
Definition returns_only {T} (Q : T → Prop) (d : Deserial T) : Prop :=
  ∀ s v s', d s = (Return v, s') → Q v.



(** The tags of the first alternative of [type Type]. *)
Definition scalar_tag (t : TypeTag.t) : bool :=
  match t with
  | TypeTag.Unit | TypeTag.Bool | TypeTag.U8 | TypeTag.U16 | TypeTag.U32
  | TypeTag.U64 | TypeTag.U128 | TypeTag.I8 | TypeTag.I16 | TypeTag.I32
  | TypeTag.I64 | TypeTag.I128 | TypeTag.Amount | TypeTag.AccountAddress
  | TypeTag.ContractAddress | TypeTag.Timestamp | TypeTag.Duration => true
  | _ => false
  end.

Definition collection_tag (t : TypeTag.t) : bool :=
  match t with TypeTag.List | TypeTag.Set_ => true | _ => false end.

Definition string_tag (t : TypeTag.t) : bool :=
  match t with
  | TypeTag.String | TypeTag.ContractName | TypeTag.ReceiveName => true
  | _ => false
  end.

(** What [type Type] and [type Fields] say of a value, as far as it can be
    said of numbers: every [typeTag] is one its alternative allows, every
    [sizeLength] is a byte, every [size] and every array length fits 32
    bits. Names are asked to satisfy [name_ok]. *)
Fixpoint Type_wf (name_ok : JSString → bool) (t : Type_) : bool :=
  match t with
  | Type_scalar tag => scalar_tag tag
  | Type_Pair l r => Type_wf name_ok l && Type_wf name_ok r
  | Type_ListSet tag sl e =>
      collection_tag tag && (sl <=? 255) && Type_wf name_ok e
  | Type_Map sl k v => (sl <=? 255) && Type_wf name_ok k && Type_wf name_ok v
  | Type_Array size e => (size <? 2 ^ 32) && Type_wf name_ok e
  | Type_Struct f => Fields_wf name_ok f
  | Type_Enum vs =>
      (N.of_nat (length vs) <? 2 ^ 32)
      && forallb (fun p => name_ok p.1 && Fields_wf name_ok p.2) vs
  | Type_String tag sl => string_tag tag && (sl <=? 255)
  end
with Fields_wf (name_ok : JSString → bool) (f : Fields) : bool :=
  match f with
  | Fields_Named cs =>
      (N.of_nat (length cs) <? 2 ^ 32)
      && forallb (fun p => name_ok p.1 && Type_wf name_ok p.2) cs
  | Fields_Unnamed cs =>
      (N.of_nat (length cs) <? 2 ^ 32) && forallb (Type_wf name_ok) cs
  | Fields_None => true
  end.

Definition any_name (_ : JSString) : bool := true.

(** The same of a [Contract] and of a [Module]. *)
Definition Contract_wf (name_ok : JSString → bool) (c : Contract) : bool :=
  from_option (Type_wf name_ok) true (state c)
  && from_option (Type_wf name_ok) true (init c)
  && (N.of_nat (size (receive c)) <? 2 ^ 32)
  && forallb (fun kv => name_ok kv.1 && Type_wf name_ok kv.2)
       (map_to_list (receive c)).

Definition Module_wf (name_ok : JSString → bool) (m : Module_) : bool :=
  (N.of_nat (size m) <? 2 ^ 32)
  && forallb (fun kv => name_ok kv.1 && Contract_wf name_ok kv.2)
       (map_to_list m).

(** *** The wire format

    The module only decodes. The functions below write a value down the way
    the decoders read it: they serve to state which byte sequences the
    decoders accept, and what for. *)















(** ** The stream *)

Lemma consume_spec chunks : ∀ n,
  (consume n chunks).1 = take n (concat chunks)
  ∧ concat (consume n chunks).2 = drop n (concat chunks).
Proof.
  induction chunks as [|c cs IH]; intros n; simpl.
  - by rewrite take_nil, drop_nil.
  - destruct (Nat.eqb_spec n 0) as [->|Hn]; simpl; [done|].
    destruct (Nat.ltb_spec n (length c)) as [Hlt|Hge]; simpl.
    + rewrite take_app_le, drop_app_le by lia. done.
    + destruct (IH (n - length c)%nat) as [IH1 IH2].
      destruct (consume (n - length c) cs) as [bs rest]. simpl in *.
      rewrite take_app_ge, drop_app_ge by lia. by rewrite IH1, IH2.
Qed.

Lemma byteLength_content s : byteLength s = length (content s).
Proof. reflexivity. Qed.

(** [read] with enough bytes buffered hands out exactly the first [n]. *)
Lemma read_enough n s :
  (0 < n)%nat → (n ≤ byteLength s)%nat →
  ∃ s', read n s = (Some (take n (content s)), s')
        ∧ content s' = drop n (content s) ∧ ended s' = ended s.
Proof.
  intros Hn Hle. unfold read, howMuchToRead.
  destruct (Nat.leb_spec n (byteLength s)) as [_|?]; [|lia].
  destruct (Nat.eqb_spec n 0) as [?|_]; [lia|].
  destruct (consume_spec (buffer s) n) as [H1 H2].
  destruct (consume n (buffer s)) as [bs rest]. simpl in *.
  eexists. split; [by rewrite H1|]. done.
Qed.

(** [read] on a stream that has not ended and holds too few bytes gives
    [null] and leaves the stream alone. *)
Lemma read_starved n s :
  (byteLength s < n)%nat → ended s = false → read n s = (None, s).
Proof.
  intros Hlt He. unfold read, howMuchToRead.
  destruct (Nat.leb_spec n (byteLength s)) as [?|_]; [lia|].
  by rewrite He.
Qed.

(** [read] on an empty stream gives [null], ended or not. *)
Lemma read_ended_empty n s :
  (0 < n)%nat → byteLength s = 0%nat → read n s = (None, s).
Proof.
  intros Hn H0. unfold read, howMuchToRead. rewrite H0.
  destruct (Nat.leb_spec n 0) as [?|_]; [lia|]. by destruct (ended s).
Qed.

(** [read] on an ended stream that holds some, but too few, bytes hands out
    all that is left. *)
Lemma read_ended_short n s :
  (0 < byteLength s)%nat → (byteLength s < n)%nat → ended s = true →
  ∃ s', read n s = (Some (content s), s')
        ∧ content s' = [] ∧ ended s' = true.
Proof.
  intros Hpos Hlt He. unfold read, howMuchToRead.
  destruct (Nat.leb_spec n (byteLength s)) as [?|_]; [lia|].
  rewrite He.
  destruct (Nat.eqb_spec (byteLength s) 0) as [?|_]; [lia|].
  destruct (consume_spec (buffer s) (byteLength s)) as [H1 H2].
  destruct (consume (byteLength s) (buffer s)) as [bs rest]. simpl in *.
  exists (mkReadable rest true). subst bs. split; [|split; [|done]].
  - do 2 f_equal. apply take_ge. done.
  - unfold content. simpl. rewrite H2. by apply drop_ge.
Qed.

(** ** The primitive decoders *)

Lemma deserialUint8_spec s : Uint8_spec s (deserialUint8 s).
Proof.
  unfold deserialUint8.
  destruct (content s) as [|b rest] eqn:Hc.
  - rewrite read_ended_empty; [by constructor|lia|].
    by rewrite byteLength_content, Hc.
  - destruct (read_enough 1 s) as (s' & -> & Hs' & He); [lia| |].
    { rewrite byteLength_content, Hc. simpl. lia. }
    rewrite Hc in *. simpl in *. by econstructor.
Qed.

Lemma deserialUint32_spec s : Uint32_spec s (deserialUint32 s).
Proof.
  unfold deserialUint32.
  destruct (Nat.le_gt_cases 4 (byteLength s)) as [Hle|Hlt].
  - destruct (read_enough 4 s) as (s' & -> & Hs' & He); [lia|done|].
    rewrite byteLength_content in Hle.
    destruct (content s) as [|b0 [|b1 [|b2 [|b3 rest]]]] eqn:Hc;
      simpl in Hle; try lia.
    simpl in *. by econstructor.
  - destruct (ended s) eqn:He.
    + destruct (Nat.eq_dec (byteLength s) 0%nat) as [H0|Hpos].
      * rewrite read_ended_empty; [|lia|done].
        constructor; [by rewrite <- byteLength_content|].
        right. by apply length_zero_iff_nil.
      * destruct (read_ended_short 4 s) as (s' & -> & Hs' & He');
          [lia|done|done|].
        rewrite byteLength_content in *.
        destruct (content s) as [|b0 [|b1 [|b2 [|b3 rest]]]] eqn:Hc;
          simpl in *; try lia;
          (econstructor; rewrite ?Hc; simpl; try done; lia).
    + rewrite read_starved by done.
      constructor; [by rewrite <- byteLength_content|by left].
Qed.

Lemma deserialUint8_Return s b rest :
  content s = b :: rest →
  ∃ s', deserialUint8 s = (Return (Byte.to_N b), s')
        ∧ content s' = rest ∧ ended s' = ended s.
Proof.
  intros Hc. destruct (deserialUint8_spec s) as [b' rest' s' Hc' Hs' He|Hc'];
    rewrite Hc in Hc'; simplify_eq. eauto.
Qed.

Lemma deserialUint8_inv s v s' :
  deserialUint8 s = (Return v, s') →
  ∃ b, content s = b :: content s' ∧ v = Byte.to_N b ∧ ended s' = ended s.
Proof.
  intros H. destruct (deserialUint8_spec s); simplify_eq. eauto.
Qed.

Lemma deserialUint32_Return s b0 b1 b2 b3 rest :
  content s = b0 :: b1 :: b2 :: b3 :: rest →
  ∃ s', deserialUint32 s = (Return (uint32LE b0 b1 b2 b3), s')
        ∧ content s' = rest ∧ ended s' = ended s.
Proof.
  intros Hc.
  destruct (deserialUint32_spec s) as [? ? ? ? ? s' Hc' Hs' He|Hl ?|? Hl];
    rewrite Hc in *; simpl in *; simplify_eq; [eauto|lia..].
Qed.

Lemma deserialUint32_inv s v s' :
  deserialUint32 s = (Return v, s') →
  ∃ b0 b1 b2 b3, content s = b0 :: b1 :: b2 :: b3 :: content s'
                 ∧ v = uint32LE b0 b1 b2 b3 ∧ ended s' = ended s.
Proof.
  intros H. destruct (deserialUint32_spec s); simplify_eq. eauto 10.
Qed.

Lemma same_stream_refl s : same_stream s s.
Proof. by split. Qed.


(** ** Decoders built from the primitives

    A [Closed] relation holds of everything the module builds from the
    primitive reads. A property of one decoder is the special case of a
    relation that ignores its second argument. *)

Lemma deserialType_fuel_S fuel :
  deserialType_fuel (S fuel) =
  (tag <- deserialUint8 ;;
   deserialType_cases (deserialType_fuel fuel) (deserialFields_fuel fuel) tag).
Proof. reflexivity. Qed.

Lemma deserialFields_fuel_S fuel :
  deserialFields_fuel (S fuel) =
  (tag <- deserialUint8 ;; deserialFields_cases (deserialType_fuel fuel) tag).
Proof. reflexivity. Qed.

Section Closure.
Variable R : ∀ T, Deserial T → Deserial T → Prop.
Hypothesis HR : Closed R.

Lemma closed_array_loop T (d d' : Deserial T) :
  R T d d' → ∀ n arr,
  R _ (deserialArrayFn_loop d n arr) (deserialArrayFn_loop d' n arr).
Proof.
  intros Hd n. induction n as [|n IH]; intros arr; simpl; close HR.
  apply IH.
Qed.

Lemma closed_arrayFn T (d d' : Deserial T) :
  R T d d' → R _ (deserialArrayFn d) (deserialArrayFn d').
Proof.
  intros Hd. unfold deserialArrayFn. close HR. by apply closed_array_loop.
Qed.

Lemma closed_map_loop K `{Countable K} V (dk dk' : Deserial K)
    (dv dv' : Deserial V) :
  R K dk dk' → R V dv dv' → ∀ n obj,
  R _ (deserialMapFn_loop dk dv n obj) (deserialMapFn_loop dk' dv' n obj).
Proof.
  intros Hk Hv n. induction n as [|n IH]; intros obj; simpl; close HR. apply IH.
Qed.

Lemma closed_mapFn K `{Countable K} V (dk dk' : Deserial K)
    (dv dv' : Deserial V) :
  R K dk dk' → R V dv dv' → R _ (deserialMapFn dk dv) (deserialMapFn dk' dv').
Proof.
  intros Hk Hv. unfold deserialMapFn. close HR. by apply closed_map_loop.
Qed.

Lemma closed_optionFn T (d d' : Deserial T) :
  R T d d' → R _ (deserialOptionFn d) (deserialOptionFn d').
Proof.
  intros Hd. unfold deserialOptionFn. close HR.
  match goal with |- context [OptionTag.of_N ?a] =>
    destruct (OptionTag.of_N a) as [[]|] end; close HR.
Qed.

Lemma closed_tupleFn A B (dl dl' : Deserial A) (dr dr' : Deserial B) :
  R A dl dl' → R B dr dr' →
  R _ (deserialTupleFn dl dr) (deserialTupleFn dl' dr').
Proof. intros Hl Hr. unfold deserialTupleFn. close HR. Qed.

Lemma closed_string : R _ deserialString deserialString.
Proof. unfold deserialString. close HR. apply closed_arrayFn. close HR. Qed.

Lemma closed_type_cases dT dT' dF dF' tag :
  R _ dT dT' → R _ dF dF' →
  R _ (deserialType_cases dT dF tag) (deserialType_cases dT' dF' tag).
Proof.
  intros HT HF. unfold deserialType_cases.
  destruct (TypeTag.of_N tag) as [[]|]; close HR.
  apply closed_arrayFn, closed_tupleFn; [apply closed_string|done].
Qed.

Lemma closed_fields_cases dT dT' tag :
  R _ dT dT' →
  R _ (deserialFields_cases dT tag) (deserialFields_cases dT' tag).
Proof.
  intros HT. unfold deserialFields_cases.
  destruct (FieldsTag.of_N tag) as [[]|]; close HR.
  - apply closed_arrayFn, closed_tupleFn; [apply closed_string|done].
  - by apply closed_arrayFn.
Qed.

Lemma closed_contract (dT dT' : Deserial Type_) :
  R _ dT dT' →
  R _ (state <- deserialOptionFn dT ;;
       init <- deserialOptionFn dT ;;
       receive <- deserialMapFn deserialString dT ;;
       ret (mkContract state init receive))
      (state <- deserialOptionFn dT' ;;
       init <- deserialOptionFn dT' ;;
       receive <- deserialMapFn deserialString dT' ;;
       ret (mkContract state init receive)).
Proof.
  intros HT. close HR; try by apply closed_optionFn.
  apply closed_mapFn; [apply closed_string|done].
Qed.

Hypothesis R_stuck : ∀ T,
  R T (fun source => (OutOfFuel, source)) (fun source => (OutOfFuel, source)).

Lemma closed_fuel fuel :
  R _ (deserialType_fuel fuel) (deserialType_fuel fuel)
  ∧ R _ (deserialFields_fuel fuel) (deserialFields_fuel fuel).
Proof.
  induction fuel as [|fuel [IHT IHF]]; [split; apply R_stuck|].
  rewrite deserialType_fuel_S, deserialFields_fuel_S. split; close HR.
  - by apply closed_type_cases.
  - by apply closed_fields_cases.
Qed.
End Closure.

(** ** Bytes are only ever taken off the front *)

Lemma deserialUint8_advances s v s' :
  deserialUint8 s = (Return v, s') → S (byteLength s') = byteLength s.
Proof.
  intros H. destruct (deserialUint8_inv _ _ _ H) as (b & Hc & _ & _).
  by rewrite !byteLength_content, Hc.
Qed.

Lemma shrinks_Closed : Closed (fun T d _ => shrinks d).
Proof.
  split.
  - by intros T v s.
  - by intros T e s.
  - intros A B m _ k _ Hm Hk s. unfold bind.
    destruct (Hm s) as [Hl He].
    destruct (m s) as [[a|e|] s1]; simpl in *; try done.
    destruct (Hk a s1) as [Hl' He']. split; [lia|congruence].
  - intros s.
    destruct (deserialUint8_spec s) as [b rest s' Hc Hs' He|]; simpl; [|done].
    split; [|done]. rewrite !byteLength_content, Hc, Hs'. simpl. lia.
  - intros s.
    destruct (deserialUint32_spec s)
      as [b0 b1 b2 b3 rest s' Hc Hs' He| |s' Hl He Hs' He']; simpl; [|done|].
    + split; [|done]. rewrite !byteLength_content, Hc, Hs'. simpl. lia.
    + split; [|congruence]. rewrite !byteLength_content, Hs'. simpl. lia.
Qed.

Lemma shrinks_fuel fuel :
  shrinks (deserialType_fuel fuel) ∧ shrinks (deserialFields_fuel fuel).
Proof. by apply (closed_fuel _ shrinks_Closed). Qed.

Lemma shrinks_deserialType : shrinks deserialType.
Proof. intros s. apply shrinks_fuel. Qed.

Lemma shrinks_deserialFields : shrinks deserialFields.
Proof. intros s. apply shrinks_fuel. Qed.

(** ** Chunk boundaries do not matter *)











(** ** The recursion budget is never used up *)

Lemma deserialUint8_not_stuck s : (deserialUint8 s).1 ≠ OutOfFuel.
Proof. by destruct (deserialUint8_spec s). Qed.

Lemma deserialUint32_not_stuck s : (deserialUint32 s).1 ≠ OutOfFuel.
Proof. by destruct (deserialUint32_spec s). Qed.

Lemma total_Closed n : Closed (fun T d _ => shrinks d ∧ total_under n d).
Proof.
  split.
  - intros T v. split; [apply shrinks_Closed|]. by intros s _.
  - intros T e. split; [apply shrinks_Closed|]. by intros s _.
  - intros A B m _ k _ [Hsm Htm] Hk. split.
    + apply (closed_bind _ shrinks_Closed _ _ m m k k); [done|].
      intros a. apply Hk.
    + intros s Hs. unfold bind. specialize (Htm s Hs).
      destruct (Hsm s) as [Hl _].
      destruct (m s) as [[a|e|] s1]; simpl in *; try done.
      apply Hk. lia.
  - split; [apply shrinks_Closed|]. intros s _. apply deserialUint8_not_stuck.
  - split; [apply shrinks_Closed|]. intros s _. apply deserialUint32_not_stuck.
Qed.

Lemma total_fuel fuel :
  total_under fuel (deserialType_fuel fuel)
  ∧ total_under fuel (deserialFields_fuel fuel).
Proof.
  induction fuel as [|fuel [IHT IHF]]; [split; intros s Hs; lia|].
  rewrite deserialType_fuel_S, deserialFields_fuel_S.
  split; intros s Hs; unfold bind;
    pose proof (deserialUint8_not_stuck s) as Hns;
    destruct (deserialUint8 s) as [[tag|e|] s1] eqn:Hu; simpl; try done;
    apply deserialUint8_advances in Hu.
  - apply (closed_type_cases _ (total_Closed fuel)
             (deserialType_fuel fuel) (deserialType_fuel fuel)
             (deserialFields_fuel fuel) (deserialFields_fuel fuel) tag);
      [split; [apply shrinks_fuel|done]..|lia].
  - apply (closed_fields_cases _ (total_Closed fuel)
             (deserialType_fuel fuel) (deserialType_fuel fuel) tag);
      [split; [apply shrinks_fuel|done]|lia].
Qed.

Lemma agree_Closed n : Closed (fun T d d' => shrinks d ∧ agree_upto n d d').
Proof.
  split.
  - intros T v. split; [apply shrinks_Closed|]. by intros s _.
  - intros T e. split; [apply shrinks_Closed|]. by intros s _.
  - intros A B m m' k k' [Hsm Ham] Hk. split.
    + apply (closed_bind _ shrinks_Closed _ _ m m k k); [done|].
      intros a. apply Hk.
    + intros s Hs. unfold bind. rewrite <- (Ham s Hs).
      destruct (Hsm s) as [Hl _].
      destruct (m s) as [[a|e|] s1]; simpl in *; try done.
      apply Hk. lia.
  - split; [apply shrinks_Closed|]. by intros s _.
  - split; [apply shrinks_Closed|]. by intros s _.
Qed.

(** Two budgets that both exceed the number of buffered bytes give the same
    result. *)
Lemma fuel_agree f1 : ∀ f2 n, (n < f1)%nat → (n < f2)%nat →
  agree_upto n (deserialType_fuel f1) (deserialType_fuel f2)
  ∧ agree_upto n (deserialFields_fuel f1) (deserialFields_fuel f2).
Proof.
  induction f1 as [|f1 IH]; intros f2 n H1 H2; [lia|].
  destruct f2 as [|f2]; [lia|].
  rewrite !deserialType_fuel_S, !deserialFields_fuel_S.
  split; intros s Hs; unfold bind;
    destruct (deserialUint8 s) as [[tag|e|] s1] eqn:Hu; try done;
    apply deserialUint8_advances in Hu;
    (destruct (IH f2 (n - 1)%nat) as [IHT IHF]; [lia..|]).
  - apply (closed_type_cases _ (agree_Closed (n - 1)) _ _ _ _ tag);
      [split; [apply shrinks_fuel|done]..|lia].
  - apply (closed_fields_cases _ (agree_Closed (n - 1)) _ _ tag);
      [split; [apply shrinks_fuel|done]|lia].
Qed.

Lemma deserialType_fuel_enough fuel s :
  (byteLength s < fuel)%nat → deserialType_fuel fuel s = deserialType s.
Proof.
  intros H. unfold deserialType.
  apply (fuel_agree fuel (S (byteLength s)) (byteLength s)); lia.
Qed.

Lemma deserialFields_fuel_enough fuel s :
  (byteLength s < fuel)%nat → deserialFields_fuel fuel s = deserialFields s.
Proof.
  intros H. unfold deserialFields.
  apply (fuel_agree fuel (S (byteLength s)) (byteLength s)); lia.
Qed.

(** The decoders satisfy the recursive equations of the source text. *)
Lemma deserialType_unfold s :
  deserialType s =
  (tag <- deserialUint8 ;;
   deserialType_cases deserialType deserialFields tag) s.
Proof.
  unfold deserialType at 1. rewrite deserialType_fuel_S. unfold bind.
  destruct (deserialUint8 s) as [[tag|e|] s1] eqn:Hu; try done.
  apply deserialUint8_advances in Hu.
  apply (closed_type_cases _ (agree_Closed (byteLength s1)) _ _ _ _ tag);
    [split; [apply shrinks_fuel|]..|lia]; intros t Ht.
  - apply deserialType_fuel_enough. lia.
  - apply deserialFields_fuel_enough. lia.
Qed.

Lemma deserialFields_unfold s :
  deserialFields s =
  (tag <- deserialUint8 ;; deserialFields_cases deserialType tag) s.
Proof.
  unfold deserialFields at 1. rewrite deserialFields_fuel_S. unfold bind.
  destruct (deserialUint8 s) as [[tag|e|] s1] eqn:Hu; try done.
  apply deserialUint8_advances in Hu.
  apply (closed_fields_cases _ (agree_Closed (byteLength s1)) _ _ tag);
    [split; [apply shrinks_fuel|]|lia]; intros t Ht.
  apply deserialType_fuel_enough. lia.
Qed.

Lemma deserialType_not_stuck s : (deserialType s).1 ≠ OutOfFuel.
Proof. apply total_fuel. lia. Qed.

Lemma deserialFields_not_stuck s : (deserialFields s).1 ≠ OutOfFuel.
Proof. apply total_fuel. lia. Qed.

(** A call that returns has taken at least its tag byte. *)
Lemma deserialType_advances s v s' :
  deserialType s = (Return v, s') → (byteLength s' < byteLength s)%nat.
Proof.
  rewrite deserialType_unfold. unfold bind.
  destruct (deserialUint8 s) as [[tag|e|] s1] eqn:Hu; try done.
  apply deserialUint8_advances in Hu. intros H.
  assert (shrinks (deserialType_cases deserialType deserialFields tag)) as Hs.
  { apply (closed_type_cases _ shrinks_Closed _ deserialType _ deserialFields).
    - apply shrinks_deserialType.
    - apply shrinks_deserialFields. }
  destruct (Hs s1) as [Hl _]. rewrite H in Hl. simpl in Hl. lia.
Qed.

(** ** A successful run is determined by the bytes it consumes *)

Lemma strict_prefix_nil p : ¬ strict_prefix p [].
Proof.
  intros (q & Hq & Heq). symmetry in Heq.
  apply app_eq_nil in Heq as [_ ?]. done.
Qed.

Lemma strict_prefix_length p c : strict_prefix p c → (length p < length c)%nat.
Proof.
  intros (q & Hq & ->). rewrite length_app.
  destruct q; [done|simpl; lia].
Qed.

Lemma strict_prefix_app p c1 c2 :
  strict_prefix p (c1 ++ c2) →
  strict_prefix p c1 ∨ ∃ p2, p = c1 ++ p2 ∧ strict_prefix p2 c2.
Proof.
  intros (q & Hq & Heq).
  apply app_eq_app in Heq as [l [[-> ->]|[-> ->]]].
  - destruct l as [|x l].
    + right. exists []. rewrite !app_nil_r. split; [done|]. by exists c2.
    + left. by exists (x :: l).
  - right. exists l. split; [done|]. by exists q.
Qed.

Lemma framed_Closed : Closed (fun T d _ => framed d).
Proof.
  split.
  - intros T v s v' s' [= <- <-]. exists []. split; [done|]. split.
    + intros t r Hr. by exists t.
    + intros t _ Hp. by apply strict_prefix_nil in Hp.
  - by intros T e s v s' [=].
  - intros A B m _ k _ Hm Hk s v s'. unfold bind.
    destruct (m s) as [[a|e|] s1] eqn:Hms; try done. intros Hks.
    destruct (Hm s a s1 Hms) as (c1 & Hc1 & Hf1 & Ht1).
    destruct (Hk a s1 v s' Hks) as (c2 & Hc2 & Hf2 & Ht2).
    exists (c1 ++ c2). split; [by rewrite Hc1, Hc2, app_assoc|]. split.
    + intros t r Hr. rewrite <- app_assoc in Hr.
      destruct (Hf1 t _ Hr) as (t1 & -> & Hct1 & Het1).
      destruct (Hf2 t1 r Hct1) as (t' & -> & Hct' & Het').
      exists t'. split; [done|]. split; [done|congruence].
    + intros t He Hp. apply strict_prefix_app in Hp as [Hp|(p2 & Hp & Hp2)].
      * destruct (Ht1 t He Hp) as (e & t' & -> & Hx). by exists e, t'.
      * destruct (Hf1 t p2 Hp) as (t1 & -> & Hct1 & Het1).
        rewrite <- Hct1 in Hp2.
        apply (Ht2 t1); [congruence|done].
  - intros s v s' H.
    destruct (deserialUint8_inv _ _ _ H) as (b & Hc & -> & He).
    exists [b]. split; [done|]. split.
    + intros t r Hr. by apply deserialUint8_Return.
    + intros t Het Hp. apply strict_prefix_length in Hp. simpl in Hp.
      destruct (deserialUint8_spec t) as [b' rest t' Hct|Hct].
      * rewrite Hct in Hp. simpl in Hp. lia.
      * exists TypeError_null, t. split; [done|by left].
  - intros s v s' H.
    destruct (deserialUint32_inv _ _ _ H) as (b0 & b1 & b2 & b3 & Hc & -> & He).
    exists [b0; b1; b2; b3]. split; [done|]. split.
    + intros t r Hr. by apply deserialUint32_Return.
    + intros t Het Hp. apply strict_prefix_length in Hp. simpl in Hp.
      destruct (deserialUint32_spec t) as [? ? ? ? rest t' Hct| |t'].
      * rewrite Hct in Hp. simpl in Hp. lia.
      * exists TypeError_null, t. split; [done|by left].
      * exists RangeError_bounds, t'. split; [done|by right].
Qed.

Lemma framed_fuel fuel :
  framed (deserialType_fuel fuel) ∧ framed (deserialFields_fuel fuel).
Proof. by apply (closed_fuel _ framed_Closed). Qed.

Lemma framed_deserialType : framed deserialType.
Proof.
  intros s v s' H.
  destruct (proj1 (framed_fuel (S (byteLength s))) s v s' H)
    as (c & Hc & _ & Ht).
  exists c. split; [done|]. split.
  - intros t r Hr.
    set (f := S (byteLength s `max` byteLength t)).
    assert (deserialType_fuel f s = (Return v, s')) as Hf.
    { rewrite deserialType_fuel_enough; [done|unfold f; lia]. }
    destruct (proj1 (framed_fuel f) s v s' Hf) as (c' & Hc' & Hf' & _).
    assert (c' = c) as -> by (rewrite Hc in Hc'; by apply app_inv_tail in Hc').
    destruct (Hf' t r Hr) as (t' & Ht' & ?). exists t'. split; [|done].
    rewrite <- Ht'. symmetry. apply deserialType_fuel_enough. unfold f. lia.
  - intros t Het Hp. destruct (Ht t Het Hp) as (e & t' & Ht' & ?).
    exists e, t'. split; [|done]. rewrite <- Ht'. symmetry.
    apply deserialType_fuel_enough.
    apply strict_prefix_length in Hp.
    assert (length c ≤ length (content s))%nat
      by (rewrite Hc, length_app; lia).
    rewrite !byteLength_content. lia.
Qed.

Lemma framed_deserialContract : framed deserialContract.
Proof.
  apply (closed_contract _ framed_Closed deserialType deserialType).
  apply framed_deserialType.
Qed.

Lemma framed_deserialModule : framed deserialModule.
Proof.
  apply (closed_mapFn _ framed_Closed _ _
           deserialString deserialString deserialContract deserialContract).
  - apply (closed_string _ framed_Closed).
  - apply framed_deserialContract.
Qed.

(** ** Loops *)

Lemma Runs_length {T} (d : Deserial T) n s xs s' :
  Runs d n s xs s' → length xs = n.
Proof. induction 1; simpl; congruence. Qed.

Lemma Aborts_lt {T} (d : Deserial T) n s k e s' :
  Aborts d n s k e s' → (k < n)%nat.
Proof. induction 1; lia. Qed.

Lemma array_loop_Return {T} (d : Deserial T) n : ∀ arr s ys s',
  deserialArrayFn_loop d n arr s = (Return ys, s')
  ↔ ∃ xs, ys = arr ++ xs ∧ Runs d n s xs s'.
Proof.
  induction n as [|n IH]; intros arr s ys s'; simpl.
  - split.
    + intros [= <- <-]. exists []. rewrite app_nil_r. split; [done|constructor].
    + intros (xs & -> & Hr). inversion Hr; subst. by rewrite app_nil_r.
  - unfold bind at 1. destruct (d s) as [[x|e|] s1] eqn:Hd.
    + rewrite IH. split.
      * intros (xs & -> & Hr). exists (x :: xs).
        rewrite <- app_assoc. split; [done|]. by econstructor.
      * intros (xs & -> & Hr).
        inversion Hr as [|? ? x0 s0 xs0 ? Hd0 Hr0]; subst.
        rewrite Hd in Hd0. simplify_eq.
        exists xs0. by rewrite <- app_assoc.
    + split; [done|]. intros (xs & _ & Hr). inversion Hr; congruence.
    + split; [done|]. intros (xs & _ & Hr). inversion Hr; congruence.
Qed.

Lemma array_loop_Throw {T} (d : Deserial T) n : ∀ arr s e s',
  deserialArrayFn_loop d n arr s = (Throw e, s')
  ↔ ∃ k, Aborts d n s k e s'.
Proof.
  induction n as [|n IH]; intros arr s e s'; simpl.
  - split; [done|]. intros (k & Ha). inversion Ha.
  - unfold bind at 1. destruct (d s) as [[x|e0|] s1] eqn:Hd.
    + rewrite IH. split.
      * intros (k & Ha). exists (S k). by econstructor.
      * intros (k & Ha).
        inversion Ha as [? ? ? ? Hd0|? ? x0 s0 k0 ? ? Hd0 Ha0]; subst;
          rewrite Hd in Hd0; simplify_eq. by exists k0.
    + split.
      * intros [= <- <-]. exists 0%nat. by constructor.
      * intros (k & Ha). inversion Ha; subst; congruence.
    + split; [done|]. intros (k & Ha). inversion Ha; congruence.
Qed.

Lemma tupleFn_Return {A B} (dl : Deserial A) (dr : Deserial B) s a b s' :
  deserialTupleFn dl dr s = (Return (a, b), s')
  ↔ ∃ s1, dl s = (Return a, s1) ∧ dr s1 = (Return b, s').
Proof.
  unfold deserialTupleFn, bind, ret.
  destruct (dl s) as [[a'|e|] s1]; [|split; [done|by intros (? & ? & ?)]..].
  destruct (dr s1) as [[b'|e|] s2] eqn:Hr.
  - split; [intros [= <- <- <-]; by eexists|].
    intros (? & [= <- <-] & H). rewrite Hr in H. by simplify_eq.
  - split; [done|]. intros (? & [= <- <-] & H). congruence.
  - split; [done|]. intros (? & [= <- <-] & H). congruence.
Qed.

Lemma map_loop_Return {K} `{Countable K} {V} (dk : Deserial K)
    (dv : Deserial V) n : ∀ obj s m s',
  deserialMapFn_loop dk dv n obj s = (Return m, s')
  ↔ ∃ kvs, Runs (deserialTupleFn dk dv) n s kvs s'
           ∧ m = foldl (fun obj kv => <[kv.1 := kv.2]> obj) obj kvs.
Proof.
  induction n as [|n IH]; intros obj s m s'; simpl.
  - split.
    + intros [= <- <-]. exists []. split; [constructor|done].
    + intros (kvs & Hr & ->). by inversion Hr; subst.
  - split.
    + unfold bind at 1. destruct (dk s) as [[k|e|] s1] eqn:Hk; try done.
      unfold bind at 1. destruct (dv s1) as [[v|e|] s2] eqn:Hv; try done.
      rewrite IH. intros (kvs & Hr & ->). exists ((k, v) :: kvs).
      split; [|done]. econstructor; [|done]. apply tupleFn_Return. eauto.
    + intros (kvs & Hr & ->). inversion Hr as [|? ? [k v] s2 ? ? Ht]; subst.
      apply tupleFn_Return in Ht as (s1 & Hk & Hv).
      unfold bind at 1. rewrite Hk. unfold bind at 1. rewrite Hv.
      apply IH. eauto.
Qed.

(** The value an object holds for a key is the one assigned last. *)
Lemma lookup_foldl_insert {K} `{Countable K} {V} (kvs : list (K * V)) :
  ∀ (obj : gmap K V) k v,
  (foldl (fun obj kv => <[kv.1 := kv.2]> obj) obj kvs) !! k = Some v
  ↔ (∃ l1 l2, kvs = l1 ++ (k, v) :: l2 ∧ k ∉ l2.*1)
    ∨ ((k ∉ kvs.*1) ∧ obj !! k = Some v).
Proof.
  induction kvs as [|[k' v'] kvs IH] using rev_ind; intros obj k v.
  - simpl. split.
    + intros Hl. right. split; [|done]. apply not_elem_of_nil.
    + intros [(l1 & l2 & Heq & _)|[_ Hl]]; [|done].
      by destruct l1.
  - rewrite foldl_app. simpl. rewrite fmap_app. simpl.
    destruct (decide (k' = k)) as [->|Hne].
    + rewrite lookup_insert_eq. split.
      * intros [= ->]. left. exists kvs, []. split; [done|]. apply not_elem_of_nil.
      * intros [(l1 & l2 & Heq & Hnin)|[Hnin _]].
        -- destruct l2 as [|kv l2] using rev_ind.
           ++ apply app_inj_tail in Heq as [_ Heq]. congruence.
           ++ clear IHl2. rewrite app_comm_cons, app_assoc in Heq.
              apply app_inj_tail in Heq as [_ <-].
              rewrite fmap_app in Hnin. simpl in Hnin.
              exfalso. apply Hnin. apply elem_of_app. right. by left.
        -- exfalso. apply Hnin. apply elem_of_app. right. by left.
    + rewrite lookup_insert_ne by done. rewrite IH. split.
      * intros [(l1 & l2 & -> & Hnin)|[Hnin Hl]].
        -- left. exists l1, (l2 ++ [(k', v')]).
           rewrite <- app_assoc. split; [done|].
           rewrite fmap_app. simpl. rewrite elem_of_app.
           intros [?|Hin]; [done|]. apply list_elem_of_singleton in Hin. done.
        -- right. split; [|done]. rewrite elem_of_app.
           intros [?|Hin]; [done|]. apply list_elem_of_singleton in Hin. done.
      * intros [(l1 & l2 & Heq & Hnin)|[Hnin Hl]].
        -- destruct l2 as [|kv l2] using rev_ind.
           ++ apply app_inj_tail in Heq as [_ Heq]. congruence.
           ++ clear IHl2. rewrite app_comm_cons, app_assoc in Heq.
              apply app_inj_tail in Heq as [-> <-].
              left. exists l1, l2. split; [done|].
              rewrite fmap_app in Hnin. rewrite elem_of_app in Hnin. tauto.
        -- right. split; [|done]. rewrite elem_of_app in Hnin. tauto.
Qed.

(** ** The byte reader *)



(** C2. On a stream that has ended, a read that finds fewer bytes than it
    asks for throws: a TypeError when nothing is left ([read] gave [null]), a
    RangeError when a short rest is left. Neither is one of the three
    unsupported-tag errors. The exception ends the enclosing decode, which
    returns no value: a [Type], [Fields], [Contract] or [Module] whose bytes
    are cut short by the end of input is not returned in part. *)
Theorem unexpected_end_of_input :
  (∀ s, ended s = true → (byteLength s < 1)%nat →
        ∃ e s', deserialUint8 s = (Throw e, s') ∧ UnexpectedEndOfInput e)
  ∧ (∀ s, ended s = true → (byteLength s < 4)%nat →
        ∃ e s', deserialUint32 s = (Throw e, s') ∧ UnexpectedEndOfInput e)
  ∧ (∀ e, UnexpectedEndOfInput e → ¬ MalformedTag e)
  ∧ (∀ A B (m : Deserial A) (k : A → Deserial B) s e s',
        m s = (Throw e, s') → (x <- m ;; k x) s = (Throw e, s'))
  ∧ fails_when_cut_short deserialType
  ∧ fails_when_cut_short deserialFields
  ∧ fails_when_cut_short deserialContract
  ∧ fails_when_cut_short deserialModule.
Proof.
  assert (∀ T (d : Deserial T), framed d → fails_when_cut_short d) as Hcut.
  { intros T d Hd s v s' t Hr He Hp.
    destruct (Hd s v s' Hr) as (c & Hc & _ & Ht).
    apply Ht; [done|].
    rewrite !byteLength_content, Hc, length_app in Hp.
    replace (length c + length (content s') - length (content s'))%nat
      with (length c) in Hp by lia.
    by rewrite take_app_length in Hp. }
  split_and!.
  - intros s He Hl. destruct (deserialUint8_spec s) as [b rest s' Hc|Hc].
    + rewrite byteLength_content, Hc in Hl. simpl in Hl. lia.
    + exists TypeError_null, s. split; [done|by left].
  - intros s He Hl.
    destruct (deserialUint32_spec s) as [? ? ? ? rest s' Hc| |s'].
    + rewrite byteLength_content, Hc in Hl. simpl in Hl. lia.
    + exists TypeError_null, s. split; [done|by left].
    + exists RangeError_bounds, s'. split; [done|by right].
  - intros e [->| ->] (tag & [?|[?|?]]); done.
  - intros A B m k s e s' Hm. unfold bind. by rewrite Hm.
  - apply Hcut, framed_deserialType.
  - apply Hcut. intros s v s' H.
    destruct (proj2 (framed_fuel (S (byteLength s))) s v s' H)
      as (c & Hc & _ & Ht).
    exists c. split; [done|]. split.
    + intros t r Hr.
      set (f := S (byteLength s `max` byteLength t)).
      assert (deserialFields_fuel f s = (Return v, s')) as Hf.
      { rewrite deserialFields_fuel_enough; [done|unfold f; lia]. }
      destruct (proj2 (framed_fuel f) s v s' Hf) as (c' & Hc' & Hf' & _).
      assert (c' = c) as ->
        by (rewrite Hc in Hc'; by apply app_inv_tail in Hc').
      destruct (Hf' t r Hr) as (t' & Ht' & ?). exists t'. split; [|done].
      rewrite <- Ht'. symmetry. apply deserialFields_fuel_enough.
      unfold f. lia.
    + intros t Het Hp. destruct (Ht t Het Hp) as (e & t' & Ht' & ?).
      exists e, t'. split; [|done]. rewrite <- Ht'. symmetry.
      apply deserialFields_fuel_enough.
      apply strict_prefix_length in Hp.
      assert (length c ≤ length (content s))%nat
        by (rewrite Hc, length_app; lia).
      rewrite !byteLength_content. lia.
  - apply Hcut, framed_deserialContract.
  - apply Hcut, framed_deserialModule.
Qed.

(** A [u32] of which only two bytes arrived before the end of input, and the
    one-contract module of C7 cut after its ninth byte. *)
Lemma unexpected_end_of_input_witness :
  (∃ e s', deserialUint32 (push_null (delivered [[x01; x00]])) = (Throw e, s')
           ∧ UnexpectedEndOfInput e)
  ∧ (∃ e t', deserialModule
               (push_null (delivered [[x01; x00; x00; x00; x01; x00; x00; x00;
                                       x61]])) = (Throw e, t')
             ∧ UnexpectedEndOfInput e).
Proof.
  destruct unexpected_end_of_input as (_ & Hu32 & _ & _ & _ & _ & _ & Hmod).
  split.
  - apply Hu32; [reflexivity|]. vm_compute. lia.
  - apply (Hmod
             (delivered [[x01; x00; x00; x00; x01; x00; x00; x00; x61;
                          x00; x00; x00; x00; x00; x00]])
             {[ js "a" := mkContract None None ∅ ]}
             (mkReadable [] false)).
    + vm_compute. reflexivity.
    + reflexivity.
    + exists [x00; x00; x00; x00; x00; x00]. split; [done|].
      vm_compute. reflexivity.
Defined.

(** ** Tags *)

Lemma TypeTag_of_N_None tag : TypeTag.of_N tag = None ↔ 26 < tag.
Proof.
  split.
  - destruct tag as [|p]; [done|].
    do 5 (try destruct p as [p|p|]); simpl; try done; lia.
  - destruct tag as [|p]; [lia|].
    do 5 (try destruct p as [p|p|]); simpl; try done; lia.
Qed.

Lemma TypeTag_of_to_N t : TypeTag.of_N (TypeTag.to_N t) = Some t.
Proof. by destruct t. Qed.

Lemma OptionTag_of_N_None tag : OptionTag.of_N tag = None ↔ 1 < tag.
Proof.
  split.
  - destruct tag as [|[p|p|]]; simpl; try done; lia.
  - destruct tag as [|[p|p|]]; simpl; try done; lia.
Qed.

Lemma SizeLength_of_N_None n : SizeLength.of_N n = None ↔ 3 < n.
Proof.
  split.
  - destruct n as [|[[p|p|]|[p|p|]|]]; simpl; try done; lia.
  - destruct n as [|[[p|p|]|[p|p|]|]]; simpl; try done; lia.
Qed.

(** The first byte of a [Type] is its tag; the [switch] runs on the stream
    that follows it. *)
Lemma deserialType_tag s tb rest :
  content s = tb :: rest →
  ∃ s1, content s1 = rest ∧ ended s1 = ended s
        ∧ deserialType s
          = deserialType_cases deserialType deserialFields (Byte.to_N tb) s1.
Proof.
  intros Hc. destruct (deserialUint8_Return s tb rest Hc) as (s1 & Hu & ? & ?).
  exists s1. split; [done|]. split; [done|].
  rewrite deserialType_unfold. unfold bind. by rewrite Hu.
Qed.

(** C3, as stated, fails: 25 lies outside 0..24, yet it is the tag of
    [ContractName], and a stream that starts with it decodes, taking two
    bytes. *)
Lemma type_tag_25_is_decoded :
  ¬ (Byte.to_N x19 ≤ 24)
  ∧ deserialType (delivered [[x19; x02]])
    = (Return (Type_String TypeTag.ContractName 2), mkReadable [] false)
  ∧ ¬ (∀ s b rest,
         content s = b :: rest → ¬ (Byte.to_N b ≤ 24) →
         ∃ s', deserialType s
               = (Throw (Error_unsupported_type_tag (Byte.to_N b)), s')
               ∧ content s' = rest).
Proof.
  split; [by vm_compute|]. split; [by vm_compute|].
  intros H.
  destruct (H (delivered [[x19; x02]]) x19 [x02]) as (s' & Hs' & _);
    [done|by vm_compute|].
  vm_compute in Hs'. discriminate.
Qed.

(** C3, amended. The tags run from 0 to 26. On a stream whose first byte is
    greater than 26, [deserialType] throws the unsupported-type-tag error
    that carries that byte, having taken exactly that one byte off the
    stream; nothing is returned. *)
Theorem type_tag_above_26_is_unsupported s b rest :
  content s = b :: rest → 26 < Byte.to_N b →
  ∃ s', deserialType s
        = (Throw (Error_unsupported_type_tag (Byte.to_N b)), s')
        ∧ content s' = rest ∧ ended s' = ended s.
Proof.
  intros Hc Hb. destruct (deserialType_tag s b rest Hc) as (s1 & ? & ? & ->).
  exists s1. split; [|done]. unfold deserialType_cases.
  by rewrite (proj2 (TypeTag_of_N_None _) Hb).
Qed.

Lemma type_tag_above_26_is_unsupported_witness :
  ∃ s', deserialType (delivered [[x1b; x07]])
        = (Throw (Error_unsupported_type_tag 27), s')
        ∧ content s' = [x07] ∧ ended s' = false.
Proof.
  apply (type_tag_above_26_is_unsupported (delivered [[x1b; x07]]) x1b [x07]).
  - reflexivity.
  - vm_compute. reflexivity.
Defined.

(** ** Combinators *)

(** C4. [deserialArrayFn d] first reads a little-endian [u32], [L], from four
    bytes; when that read throws, so does the call. It then returns exactly
    when [L] calls of [d] in a row all return, and its result lists what they
    returned in call order, so has length [L]; it throws exactly when one of
    those calls throws, with that exception; a length of 0 gives the empty
    array without any call of [d]. *)
Theorem sequence_of_runs_L_times {T} (d : Deserial T) s :
  (∀ e s1, deserialUint32 s = (Throw e, s1) →
           deserialArrayFn d s = (Throw e, s1))
  ∧ (∀ L s1, deserialUint32 s = (Return L, s1) →
       (∃ b0 b1 b2 b3, content s = b0 :: b1 :: b2 :: b3 :: content s1
                       ∧ L = uint32LE b0 b1 b2 b3)
       ∧ (∀ xs s2, deserialArrayFn d s = (Return xs, s2)
                   ↔ Runs d (N.to_nat L) s1 xs s2)
       ∧ (∀ xs s2, Runs d (N.to_nat L) s1 xs s2 → length xs = N.to_nat L)
       ∧ (∀ e s2, deserialArrayFn d s = (Throw e, s2)
                  ↔ ∃ k, Aborts d (N.to_nat L) s1 k e s2)
       ∧ (L = 0 → deserialArrayFn d s = (Return [], s1))).
Proof.
  split.
  { intros e s1 Hu. unfold deserialArrayFn, bind. by rewrite Hu. }
  intros L s1 Hu. split_and!.
  - destruct (deserialUint32_inv _ _ _ Hu) as (b0 & b1 & b2 & b3 & ? & ? & _).
    by exists b0, b1, b2, b3.
  - intros xs s2. unfold deserialArrayFn, bind. rewrite Hu.
    rewrite array_loop_Return. simpl. split; [by intros (? & -> & ?)|eauto].
  - intros xs s2. apply Runs_length.
  - intros e s2. unfold deserialArrayFn, bind. rewrite Hu.
    apply array_loop_Throw.
  - intros ->. unfold deserialArrayFn, bind. by rewrite Hu.
Qed.

(** Two bytes behind a length of 2, and nothing asked of a decoder that
    would throw behind a length of 0. *)
Lemma sequence_of_runs_L_times_witness :
  deserialArrayFn deserialUint8
    (delivered [[x02; x00; x00; x00; x07; x09; x0b]])
  = (Return [7; 9], mkReadable [[x0b]] false)
  ∧ deserialArrayFn (throw (T := N) TypeError_null)
      (delivered [[x00; x00; x00; x00; x0b]])
    = (Return [], mkReadable [[x0b]] false).
Proof.
  split.
  - apply (proj2 (sequence_of_runs_L_times deserialUint8
                    (delivered [[x02; x00; x00; x00; x07; x09; x0b]])) 2
             (mkReadable [[x07; x09; x0b]] false)); [reflexivity|].
    apply (Runs_S _ _ _ 7 (mkReadable [[x09; x0b]] false)); [reflexivity|].
    apply (Runs_S _ _ _ 9 (mkReadable [[x0b]] false)); [reflexivity|].
    apply Runs_O.
  - apply (proj2 (sequence_of_runs_L_times (throw TypeError_null)
                    (delivered [[x00; x00; x00; x00; x0b]])) 0
             (mkReadable [[x0b]] false)); reflexivity.
Defined.



(** C6. [deserialOptionFn d] reads one tag byte; when that read throws, so
    does the call. Tag 0: it returns [null] and leaves the stream as it is
    behind the tag, without a call of [d]. Tag 1: it calls [d] on the stream
    behind the tag and returns what [d] returns, or throws what [d] throws.
    Any other tag: it throws the unsupported-option-tag error that carries
    the tag. *)
Theorem optional_of_dispatch {T} (d : Deserial T) s :
  (∀ e s1, deserialUint8 s = (Throw e, s1) →
           deserialOptionFn d s = (Throw e, s1))
  ∧ (∀ tag s1, deserialUint8 s = (Return tag, s1) →
       (∃ b, content s = b :: content s1 ∧ tag = Byte.to_N b)
       ∧ (tag = 0 → deserialOptionFn d s = (Return None, s1))
       ∧ (tag = 1 →
          deserialOptionFn d s
          = match d s1 with
            | (Return x, s2) => (Return (Some x), s2)
            | (Throw e, s2) => (Throw e, s2)
            | (OutOfFuel, s2) => (OutOfFuel, s2)
            end)
       ∧ (1 < tag →
          deserialOptionFn d s
          = (Throw (Error_unsupported_option_tag tag), s1))).
Proof.
  split.
  { intros e s1 Hu. unfold deserialOptionFn, bind. by rewrite Hu. }
  intros tag s1 Hu. split_and!.
  - destruct (deserialUint8_inv _ _ _ Hu) as (b & ? & ? & _). by exists b.
  - intros ->. unfold deserialOptionFn, bind. by rewrite Hu.
  - intros ->. unfold deserialOptionFn, bind. rewrite Hu. simpl.
    by destruct (d s1) as [[x|e|] s2].
  - intros Ht. unfold deserialOptionFn, bind. rewrite Hu.
    by rewrite (proj2 (OptionTag_of_N_None _) Ht).
Qed.

Lemma optional_of_dispatch_witness :
  deserialOptionFn deserialUint8 (delivered [[x00; x07]])
  = (Return None, mkReadable [[x07]] false)
  ∧ deserialOptionFn deserialUint8 (delivered [[x01; x07]])
    = (Return (Some 7), mkReadable [] false)
  ∧ deserialOptionFn deserialUint8 (delivered [[x02; x07]])
    = (Throw (Error_unsupported_option_tag 2), mkReadable [[x07]] false).
Proof.
  split_and!.
  - by apply (proj2 (optional_of_dispatch deserialUint8
                       (delivered [[x00; x07]])) 0
                (mkReadable [[x07]] false) eq_refl).
  - by apply (proj2 (optional_of_dispatch deserialUint8
                       (delivered [[x01; x07]])) 1
                (mkReadable [[x07]] false) eq_refl).
  - by apply (proj2 (optional_of_dispatch deserialUint8
                       (delivered [[x02; x07]])) 2
                (mkReadable [[x07]] false) eq_refl).
Defined.

(** ** The grammar *)

(** C7. [deserialContract] returns exactly when, in this order and each on
    the stream the one before left, the optional [state] type, the optional
    [init] type and the [receive] map decode; the contract it returns holds
    the three results. The fifteen bytes of a module with the one contract
    "a", no state type, no init type and no receive function decode to
    that module. *)
Theorem decode_contract_field_order :
  (∀ s c s',
     deserialContract s = (Return c, s')
     ↔ ∃ s1 s2,
         deserialOptionFn deserialType s = (Return (state c), s1)
         ∧ deserialOptionFn deserialType s1 = (Return (init c), s2)
         ∧ deserialMapFn deserialString deserialType s2
           = (Return (receive c), s'))
  ∧ deserialModule
      (delivered [[x01; x00; x00; x00;
                   x01; x00; x00; x00; x61;
                   x00;
                   x00;
                   x00; x00; x00; x00]])
    = (Return {[ js "a" := mkContract None None ∅ ]}, mkReadable [] false)
  ∧ deserialContract (delivered [[x01; x02; x00; x00; x00; x00; x00]])
    = (Return (mkContract (Some (Type_scalar TypeTag.U8)) None ∅),
       mkReadable [] false).
Proof.
  split_and!.
  - intros s c s'. unfold deserialContract. split.
    + unfold bind at 1.
      destruct (deserialOptionFn deserialType s) as [[st|e|] s1] eqn:H1;
        try done.
      unfold bind at 1.
      destruct (deserialOptionFn deserialType s1) as [[ini|e|] s2] eqn:H2;
        try done.
      unfold bind at 1.
      destruct (deserialMapFn deserialString deserialType s2)
        as [[rcv|e|] s3] eqn:H3; try done.
      intros [= <- <-]. by exists s1, s2.
    + intros (s1 & s2 & H1 & H2 & H3). unfold bind.
      rewrite H1, H2, H3. destruct c. reflexivity.
  - by vm_compute.
  - by vm_compute.
Qed.

Lemma decode_contract_field_order_witness :
  ∃ s1 s2,
    deserialOptionFn deserialType
      (delivered [[x01; x02; x00; x00; x00; x00; x00]])
    = (Return (Some (Type_scalar TypeTag.U8)), s1)
    ∧ deserialOptionFn deserialType s1 = (Return None, s2)
    ∧ deserialMapFn deserialString deserialType s2
      = (Return ∅, mkReadable [] false).
Proof.
  destruct decode_contract_field_order as (Hseq & _ & Hex).
  exact (proj1 (Hseq _ _ _) Hex).
Defined.

(** C8. Behind a [String], [ContractName] or [ReceiveName] tag,
    [deserialType] reads exactly one more byte and returns it as the
    [sizeLength], whatever its value: no byte makes the call throw, and
    nothing compares the byte with [SizeLength.U32]. *)
Theorem string_like_sizeLength_unchecked s t tb b rest :
  t = TypeTag.String ∨ t = TypeTag.ContractName ∨ t = TypeTag.ReceiveName →
  Byte.to_N tb = TypeTag.to_N t →
  content s = tb :: b :: rest →
  ∃ s', deserialType s = (Return (Type_String t (Byte.to_N b)), s')
        ∧ content s' = rest ∧ ended s' = ended s.
Proof.
  intros Ht Htb Hc.
  destruct (deserialType_tag s tb _ Hc) as (s1 & Hc1 & He1 & ->).
  destruct (deserialUint8_Return s1 b rest Hc1) as (s2 & Hu & ? & ?).
  exists s2. split; [|split; congruence].
  unfold deserialType_cases. rewrite Htb, TypeTag_of_to_N.
  destruct Ht as [->|[->| ->]]; unfold bind; by rewrite Hu.
Qed.

(** A [String] whose encoded [sizeLength] is 255, not a member of
    [SizeLength] at all. *)
Lemma string_like_sizeLength_unchecked_witness :
  SizeLength.of_N (Byte.to_N xff) = None
  ∧ ∃ s', deserialType (delivered [[x16; xff; x00]])
          = (Return (Type_String TypeTag.String (Byte.to_N xff)), s')
          ∧ content s' = [x00] ∧ ended s' = false.
Proof.
  split; [reflexivity|].
  apply (string_like_sizeLength_unchecked
           (delivered [[x16; xff; x00]]) TypeTag.String x16 xff [x00]).
  - by left.
  - reflexivity.
  - reflexivity.
Defined.

(** C10. Behind a [List], [Set] or [Map] tag, [deserialType] reads one byte
    as the [sizeLength] and goes on to the element types whatever the value
    of that byte. Every byte value is stored as read, also the values 4 to
    255, which name no member of [SizeLength]: the call returns a type that
    carries the byte whenever the element types decode, and it throws only
    what decoding an element type throws. *)
Theorem collection_sizeLength_unchecked s tag s1 sizeLength s2 :
  deserialUint8 s = (Return tag, s1) →
  deserialUint8 s1 = (Return sizeLength, s2) →
  (∃ tb b, content s = tb :: b :: content s2
           ∧ tag = Byte.to_N tb ∧ sizeLength = Byte.to_N b)
  ∧ (∀ n, SizeLength.of_N n = None ↔ 3 < n)
  ∧ (∀ t, t = TypeTag.List ∨ t = TypeTag.Set_ → tag = TypeTag.to_N t →
       deserialType s
       = match deserialType s2 with
         | (Return of_, s3) => (Return (Type_ListSet t sizeLength of_), s3)
         | (Throw e, s3) => (Throw e, s3)
         | (OutOfFuel, s3) => (OutOfFuel, s3)
         end)
  ∧ (tag = TypeTag.to_N TypeTag.Map →
       deserialType s
       = match deserialType s2 with
         | (Return ofKeys, s3) =>
             match deserialType s3 with
             | (Return ofValues, s4) =>
                 (Return (Type_Map sizeLength ofKeys ofValues), s4)
             | (Throw e, s4) => (Throw e, s4)
             | (OutOfFuel, s4) => (OutOfFuel, s4)
             end
         | (Throw e, s3) => (Throw e, s3)
         | (OutOfFuel, s3) => (OutOfFuel, s3)
         end).
Proof.
  intros Hu1 Hu2. split_and!.
  - destruct (deserialUint8_inv _ _ _ Hu1) as (tb & Hc & ? & _).
    destruct (deserialUint8_inv _ _ _ Hu2) as (b & Hc1 & ? & _).
    exists tb, b. by rewrite Hc, Hc1.
  - apply SizeLength_of_N_None.
  - intros t Ht ->. rewrite deserialType_unfold. unfold bind at 1.
    rewrite Hu1. unfold deserialType_cases. rewrite TypeTag_of_to_N.
    destruct Ht as [->| ->]; unfold bind; rewrite Hu2;
      by destruct (deserialType s2) as [[of_|e|] s3].
  - intros ->. rewrite deserialType_unfold. unfold bind at 1.
    rewrite Hu1. unfold deserialType_cases. rewrite TypeTag_of_to_N.
    unfold bind. rewrite Hu2.
    by destruct (deserialType s2) as [[k|e|] s3].
Qed.

(** A list of [u8] whose encoded [sizeLength] is 255. *)
Lemma collection_sizeLength_unchecked_witness :
  SizeLength.of_N 255 = None
  ∧ deserialType (delivered [[x10; xff; x02]])
    = (Return (Type_ListSet TypeTag.List 255 (Type_scalar TypeTag.U8)),
       mkReadable [] false).
Proof.
  destruct (collection_sizeLength_unchecked
              (delivered [[x10; xff; x02]]) 16
              (mkReadable [[xff; x02]] false) 255
              (mkReadable [[x02]] false) eq_refl eq_refl)
    as (_ & Hn & Hlist & _).
  split; [by apply Hn|].
  by rewrite (Hlist TypeTag.List (or_introl eq_refl) eq_refl).
Defined.

(** ** Every node of a decoded tree costs a byte *)

Lemma bind_Return_inv {A B} (m : Deserial A) (k : A → Deserial B) s v s' :
  (x <- m ;; k x) s = (Return v, s') →
  ∃ a s1, m s = (Return a, s1) ∧ k a s1 = (Return v, s').
Proof.
  unfold bind. destruct (m s) as [[a|e|] s1]; try done. by exists a, s1.
Qed.

Lemma arrayFn_Return_inv {T} (d : Deserial T) s xs s' :
  deserialArrayFn d s = (Return xs, s') →
  ∃ L s1, deserialUint32 s = (Return L, s1) ∧ Runs d (N.to_nat L) s1 xs s'.
Proof.
  intros H. apply bind_Return_inv in H as (L & s1 & Hu & Hl).
  apply array_loop_Return in Hl as (xs' & -> & Hr). by exists L, s1.
Qed.

Lemma shrinks_le {T} (d : Deserial T) s o s' :
  shrinks d → d s = (o, s') → (byteLength s' ≤ byteLength s)%nat.
Proof. intros Hd H. destruct (Hd s) as [Hl _]. by rewrite H in Hl. Qed.

Lemma Runs_pays {T} (size : T → nat) (d : Deserial T) n s xs s' :
  pays size d → Runs d n s xs s' →
  (sum_list_with size xs + byteLength s' ≤ byteLength s)%nat.
Proof.
  intros Hd Hr. induction Hr as [|n s x s1 xs s2 Hx _ IH]; simpl; [lia|].
  apply Hd in Hx. lia.
Qed.

Lemma arrayFn_pays {T} (size : T → nat) (d : Deserial T) :
  pays size d → pays (sum_list_with size) (deserialArrayFn d).
Proof.
  intros Hd s xs s' H. apply arrayFn_Return_inv in H as (L & s1 & Hu & Hr).
  apply (Runs_pays size) in Hr; [|done].
  apply (shrinks_le _ _ _ _ (closed_uint32 _ shrinks_Closed)) in Hu. lia.
Qed.

Lemma named_pays {T} (size : T → nat) (d : Deserial T) :
  pays size d → pays (fun p => size p.2) (deserialTupleFn deserialString d).
Proof.
  intros Hd s [name v] s' H. apply tupleFn_Return in H as (s1 & Hn & Hv).
  apply (shrinks_le _ _ _ _ (closed_string _ shrinks_Closed)) in Hn.
  apply Hd in Hv. simpl. lia.
Qed.

Lemma nodes_fuel fuel :
  pays Type_nodes (deserialType_fuel fuel)
  ∧ pays Fields_nodes (deserialFields_fuel fuel).
Proof.
  induction fuel as [|fuel [IHT IHF]]; [by split|].
  rewrite deserialType_fuel_S, deserialFields_fuel_S.
  split; intros s v s' H; apply bind_Return_inv in H as (tag & s1 & Hu & H);
    apply deserialUint8_advances in Hu.
  - unfold deserialType_cases in H.
    destruct (TypeTag.of_N tag) as [[]|]; try discriminate;
      repeat match goal with
        | H : (_ <- _ ;; _) _ = (Return _, _) |- _ =>
            apply bind_Return_inv in H as (? & ? & ? & H)
        | H : ret _ _ = (Return _, _) |- _ =>
            injection H as <- <-
        | H : deserialType_fuel fuel _ = (Return _, _) |- _ => apply IHT in H
        | H : deserialFields_fuel fuel _ = (Return _, _) |- _ => apply IHF in H
        | H : deserialUint8 _ = _ |- _ =>
            apply (shrinks_le _ _ _ _ (closed_uint8 _ shrinks_Closed)) in H
        | H : deserialUint32 _ = _ |- _ =>
            apply (shrinks_le _ _ _ _ (closed_uint32 _ shrinks_Closed)) in H
        | H : deserialArrayFn _ _ = (Return _, _) |- _ =>
            apply (arrayFn_pays _ _ (named_pays _ _ IHF)) in H
        end; simpl in *; lia.
  - unfold deserialFields_cases in H.
    destruct (FieldsTag.of_N tag) as [[]|]; try discriminate;
      repeat match goal with
        | H : (_ <- _ ;; _) _ = (Return _, _) |- _ =>
            apply bind_Return_inv in H as (? & ? & ? & H)
        | H : ret _ _ = (Return _, _) |- _ =>
            injection H as <- <-
        | H : deserialArrayFn (deserialTupleFn _ _) _ = (Return _, _) |- _ =>
            apply (arrayFn_pays _ _ (named_pays _ _ IHT)) in H
        | H : deserialArrayFn _ _ = (Return _, _) |- _ =>
            apply (arrayFn_pays _ _ IHT) in H
        end; simpl in *; lia.
Qed.

Lemma Type_nodes_pos t : (0 < Type_nodes t)%nat.
Proof. destruct t; simpl; lia. Qed.

(** C9. [deserialType] returns or throws on every stream: the recursion
    budget is never the reason a call ends, and a larger budget changes
    nothing. Every call, also every recursive one, reads its tag byte before
    anything else, and a tree it returns has at most as many [Type] and
    [Fields] nodes as the call took bytes off the stream; so the stream is
    strictly shorter after every call that returns. *)
Theorem decode_type_terminates :
  (∀ s, (deserialType s).1 ≠ OutOfFuel)
  ∧ (∀ fuel s, (byteLength s < fuel)%nat →
       deserialType_fuel fuel s = deserialType s)
  ∧ (∀ s, deserialType s
          = (tag <- deserialUint8 ;;
             deserialType_cases deserialType deserialFields tag) s)
  ∧ (∀ s, deserialFields s
          = (tag <- deserialUint8 ;; deserialFields_cases deserialType tag) s)
  ∧ (∀ s v s', deserialType s = (Return v, s') →
       (0 < Type_nodes v)%nat
       ∧ (Type_nodes v + byteLength s' ≤ byteLength s)%nat
       ∧ (byteLength s' < byteLength s)%nat).
Proof.
  split_and!.
  - apply deserialType_not_stuck.
  - apply deserialType_fuel_enough.
  - apply deserialType_unfold.
  - apply deserialFields_unfold.
  - intros s v s' H. pose proof (Type_nodes_pos v).
    apply nodes_fuel in H. split_and!; [done|done|lia].
Qed.

(** A pair of a unit and a list of [u8], six bytes for three nodes, decoded
    with a budget of a hundred. *)
Lemma decode_type_terminates_witness :
  deserialType_fuel 100 (delivered [[x0f; x00]; [x10; x00; x02; xff]])
  = (Return (Type_Pair (Type_scalar TypeTag.Unit)
               (Type_ListSet TypeTag.List 0 (Type_scalar TypeTag.U8))),
     mkReadable [[xff]] false).
Proof.
  destruct decode_type_terminates as (_ & Hfuel & _).
  rewrite Hfuel; [reflexivity|]. vm_compute. lia.
Defined.

(** ** Further facts *)

(** The reads do not wait. On a stream that has not ended and holds fewer
    bytes than the read asks for, [read] gives [null]: the call throws a
    TypeError and leaves the buffered bytes where they are. *)
Theorem starved_read_throws s :
  ended s = false →
  ((byteLength s < 1)%nat → deserialUint8 s = (Throw TypeError_null, s))
  ∧ ((byteLength s < 4)%nat → deserialUint32 s = (Throw TypeError_null, s)).
Proof.
  intros He. split; intros Hl.
  - unfold deserialUint8. by rewrite read_starved.
  - unfold deserialUint32. by rewrite read_starved.
Qed.

(** Two of the four bytes of a [u32] have arrived, two have not. *)
Lemma starved_read_throws_witness :
  deserialUint32 (delivered [[x01; x00]])
  = (Throw TypeError_null, delivered [[x01; x00]]).
Proof.
  apply (starved_read_throws (delivered [[x01; x00]]) eq_refl).
  vm_compute. lia.
Defined.

(** On a stream whose first byte is greater than 2, [deserialFields] throws
    the unsupported-fields-tag error that carries that byte, having taken
    that one byte off the stream. *)
Theorem fields_tag_above_2_is_unsupported s b rest :
  content s = b :: rest → 2 < Byte.to_N b →
  ∃ s', deserialFields s
        = (Throw (Error_unsupported_fields_tag (Byte.to_N b)), s')
        ∧ content s' = rest ∧ ended s' = ended s.
Proof.
  intros Hc Hb. destruct (deserialUint8_Return s b rest Hc) as (s1 & Hu & ? & ?).
  exists s1. split; [|done].
  rewrite deserialFields_unfold. unfold bind. rewrite Hu.
  unfold deserialFields_cases.
  destruct (Byte.to_N b) as [|[[p|p|]|[p|p|]|]]; simpl; try done; lia.
Qed.

Lemma fields_tag_above_2_is_unsupported_witness :
  ∃ s', deserialFields (delivered [[xff]])
        = (Throw (Error_unsupported_fields_tag 255), s')
        ∧ content s' = [] ∧ ended s' = false.
Proof.
  apply (fields_tag_above_2_is_unsupported (delivered [[xff]]) xff []).
  - reflexivity.
  - vm_compute. reflexivity.
Defined.

(** ** Numbers read *)

Lemma uint32LE_digits b0 b1 b2 b3 :
  uint32LE b0 b1 b2 b3 < 2 ^ 32
  ∧ uint32LE b0 b1 b2 b3 mod 256 = Byte.to_N b0
  ∧ uint32LE b0 b1 b2 b3 / 2 ^ 8 mod 256 = Byte.to_N b1
  ∧ uint32LE b0 b1 b2 b3 / 2 ^ 16 mod 256 = Byte.to_N b2
  ∧ uint32LE b0 b1 b2 b3 / 2 ^ 24 mod 256 = Byte.to_N b3.
Proof.
  unfold uint32LE.
  pose proof (Byte.to_N_bounded b0). pose proof (Byte.to_N_bounded b1).
  pose proof (Byte.to_N_bounded b2). pose proof (Byte.to_N_bounded b3).
  change (2 ^ 8) with 256. change (2 ^ 16) with 65536.
  change (2 ^ 24) with 16777216. change (2 ^ 32) with 4294967296.
  split_and!; [lia|..]; zify; Z.to_euclidean_division_equations; lia.
Qed.

(** The numbers the two primitive decoders return are in the ranges their
    documentation gives, 0 to 255 and 0 to 4294967295, and the four bytes
    [deserialUint32] takes are the base-256 digits of its result, the least
    significant first. *)
Theorem primitive_results_in_range s v s' :
  (deserialUint8 s = (Return v, s') → v ≤ 255)
  ∧ (deserialUint32 s = (Return v, s') →
     v ≤ 4294967295
     ∧ ∃ b0 b1 b2 b3,
         content s = b0 :: b1 :: b2 :: b3 :: content s'
         ∧ Byte.to_N b0 = v mod 256
         ∧ Byte.to_N b1 = v / 2 ^ 8 mod 256
         ∧ Byte.to_N b2 = v / 2 ^ 16 mod 256
         ∧ Byte.to_N b3 = v / 2 ^ 24 mod 256).
Proof.
  split; intros H.
  - destruct (deserialUint8_inv _ _ _ H) as (b & _ & -> & _).
    apply Byte.to_N_bounded.
  - destruct (deserialUint32_inv _ _ _ H) as (b0 & b1 & b2 & b3 & Hc & -> & _).
    destruct (uint32LE_digits b0 b1 b2 b3) as (Hlt & H0 & H1 & H2 & H3).
    split; [change (2 ^ 32) with 4294967296 in Hlt; lia|].
    by exists b0, b1, b2, b3.
Qed.

Lemma primitive_results_in_range_witness :
  0x12345678 ≤ 4294967295
  ∧ ∃ b0 b1 b2 b3,
      content (delivered [[x78; x56]; [x34; x12; xff]])
      = b0 :: b1 :: b2 :: b3 :: content (mkReadable [[xff]] false)
      ∧ Byte.to_N b0 = 0x12345678 mod 256
      ∧ Byte.to_N b1 = 0x12345678 / 2 ^ 8 mod 256
      ∧ Byte.to_N b2 = 0x12345678 / 2 ^ 16 mod 256
      ∧ Byte.to_N b3 = 0x12345678 / 2 ^ 24 mod 256.
Proof.
  apply (primitive_results_in_range
           (delivered [[x78; x56]; [x34; x12; xff]]) 0x12345678
           (mkReadable [[xff]] false)).
  reflexivity.
Defined.

(** ** What a call leaves on the stream *)

Lemma consumes_prefix_Closed : Closed (fun T d _ => consumes_prefix d).
Proof.
  split.
  - by intros T v s.
  - by intros T e s.
  - intros A B m _ k _ Hm Hk s. unfold bind.
    destruct (Hm s) as [Hl He].
    destruct (m s) as [[a|e|] s1]; simpl in *; try done.
    destruct (Hk a s1) as [Hl' He']. split; [by etrans|congruence].
  - intros s.
    destruct (deserialUint8_spec s) as [b rest s' Hc Hs' He|]; simpl; [|done].
    split; [|done]. rewrite Hc, Hs'. by exists [b].
  - intros s.
    destruct (deserialUint32_spec s)
      as [b0 b1 b2 b3 rest s' Hc Hs' He| |s' Hl He Hs' He']; simpl; [|done|].
    + split; [|done]. rewrite Hc, Hs'. by exists [b0; b1; b2; b3].
    + split; [|congruence]. rewrite Hs'. apply suffix_nil.
Qed.

Lemma consumes_prefix_deserialType : consumes_prefix deserialType.
Proof.
  intros s.
  apply (closed_fuel _ consumes_prefix_Closed); by intros T t.
Qed.




(** ** No lookahead *)

Lemma framed_deserialFields : framed deserialFields.
Proof.
  intros s v s' H.
  destruct (proj2 (framed_fuel (S (byteLength s))) s v s' H)
    as (c & Hc & _ & Ht).
  exists c. split; [done|]. split.
  - intros t r Hr.
    set (f := S (byteLength s `max` byteLength t)).
    assert (deserialFields_fuel f s = (Return v, s')) as Hf.
    { rewrite deserialFields_fuel_enough; [done|unfold f; lia]. }
    destruct (proj2 (framed_fuel f) s v s' Hf) as (c' & Hc' & Hf' & _).
    assert (c' = c) as ->
      by (rewrite Hc in Hc'; by apply app_inv_tail in Hc').
    destruct (Hf' t r Hr) as (t' & Ht' & ?). exists t'. split; [|done].
    rewrite <- Ht'. symmetry. apply deserialFields_fuel_enough.
    unfold f. lia.
  - intros t Het Hp. destruct (Ht t Het Hp) as (e & t' & Ht' & ?).
    exists e, t'. split; [|done]. rewrite <- Ht'. symmetry.
    apply deserialFields_fuel_enough.
    apply strict_prefix_length in Hp.
    assert (length c ≤ length (content s))%nat
      by (rewrite Hc, length_app; lia).
    rewrite !byteLength_content. lia.
Qed.

Lemma framed_no_lookahead {T} (d : Deserial T) : framed d → no_lookahead d.
Proof.
  intros Hd s v s' H. destruct (Hd s v s' H) as (c & Hc & Hf & _).
  by exists c.
Qed.

(** A call that returns has read nothing behind the bytes it consumed: on
    every stream that starts with those bytes, in whatever state of
    delivery, it returns the same value and leaves all that follows. *)
Theorem decoders_do_not_look_ahead :
  no_lookahead deserialString
  ∧ no_lookahead deserialType
  ∧ no_lookahead deserialFields
  ∧ no_lookahead deserialContract
  ∧ no_lookahead deserialModule.
Proof.
  split_and!; apply framed_no_lookahead.
  - apply (closed_string _ framed_Closed).
  - apply framed_deserialType.
  - apply framed_deserialFields.
  - apply framed_deserialContract.
  - apply framed_deserialModule.
Qed.

Lemma decoders_do_not_look_ahead_witness :
  ∃ c, content (delivered [[x0f; x00; x02; xff]])
       = c ++ content (mkReadable [[xff]] false)
     ∧ ∀ t r, content t = c ++ r →
         ∃ t', deserialType t
               = (Return (Type_Pair (Type_scalar TypeTag.Unit)
                            (Type_scalar TypeTag.U8)), t')
               ∧ content t' = r ∧ ended t' = ended t.
Proof.
  destruct decoders_do_not_look_ahead as (_ & HT & _).
  apply (HT (delivered [[x0f; x00; x02; xff]])). reflexivity.
Defined.

(** ** Where an unsupported tag was read *)

Section Closure_reads.
Variable P : ∀ T, Deserial T → Prop.
Hypothesis HP : Closed_reads P.

Lemma reads_array_loop T (d : Deserial T) :
  P T d → ∀ n arr, P _ (deserialArrayFn_loop d n arr).
Proof.
  intros Hd n. induction n as [|n IH]; intros arr; simpl; close_reads HP.
  apply IH.
Qed.

Lemma reads_arrayFn T (d : Deserial T) : P T d → P _ (deserialArrayFn d).
Proof.
  intros Hd. unfold deserialArrayFn. close_reads HP.
  by apply reads_array_loop.
Qed.

Lemma reads_map_loop K `{Countable K} V (dk : Deserial K) (dv : Deserial V) :
  P K dk → P V dv → ∀ n obj, P _ (deserialMapFn_loop dk dv n obj).
Proof.
  intros Hk Hv n. induction n as [|n IH]; intros obj; simpl; close_reads HP.
  apply IH.
Qed.

Lemma reads_mapFn K `{Countable K} V (dk : Deserial K) (dv : Deserial V) :
  P K dk → P V dv → P _ (deserialMapFn dk dv).
Proof.
  intros Hk Hv. unfold deserialMapFn. close_reads HP.
  by apply reads_map_loop.
Qed.

Lemma reads_tupleFn A B (dl : Deserial A) (dr : Deserial B) :
  P A dl → P B dr → P _ (deserialTupleFn dl dr).
Proof. intros Hl Hr. unfold deserialTupleFn. close_reads HP. Qed.

Lemma reads_string : P _ deserialString.
Proof.
  unfold deserialString. close_reads HP. apply reads_arrayFn. close_reads HP.
Qed.
End Closure_reads.

Lemma reports_tags_Closed_reads : Closed_reads (@reports_tags).
Proof.
  pose proof consumes_prefix_Closed as HC. split.
  - intros T v. split; [apply (closed_ret _ HC)|]. by intros s e s' [=].
  - intros A B m k [Hcm Hpm] Hk. split.
    + apply (closed_bind _ HC _ _ m m k k); [done|]. intros a. apply Hk.
    + intros s e s'. unfold bind.
      destruct (m s) as [[a|e0|] s1] eqn:Hm; try done.
      * intros Hka He.
        destruct (proj2 (Hk a) s1 e s' Hka He) as (c & b & Hc & Hb).
        destruct (Hcm s) as [[c0 Hc0] _]. rewrite Hm in Hc0. simpl in Hc0.
        exists (c0 ++ c), b. split; [|done]. by rewrite Hc0, Hc, <- app_assoc.
      * intros [= <- <-] He. by apply (Hpm s).
  - split; [apply (closed_uint8 _ HC)|]. intros s e s' H (tag & He).
    destruct (deserialUint8_spec s); inversion H; subst;
      destruct He as [?|[?|?]]; discriminate.
  - split; [apply (closed_uint32 _ HC)|]. intros s e s' H (tag & He).
    destruct (deserialUint32_spec s); inversion H; subst;
      destruct He as [?|[?|?]]; discriminate.
Qed.

(** A tag switch behind the read of its tag: every branch either keeps the
    property or throws the error about the byte just read. *)
Lemma reports_tags_switch {T} (k : N → Deserial T) :
  (∀ b, reports_tags (k (Byte.to_N b))
        ∨ ∃ e, k (Byte.to_N b) = throw e ∧ offending_tag e b) →
  reports_tags (tag <- deserialUint8 ;; k tag).
Proof.
  intros Hk. split.
  - intros s. unfold bind.
    destruct (deserialUint8_spec s) as [b rest s1 Hc Hs1 He|]; [|done].
    assert (content s1 `suffix_of` content s) as Hsuf
      by (rewrite Hc, Hs1; by exists [b]).
    destruct (Hk b) as [[Hcp _]|(e & -> & _)].
    + destruct (Hcp s1) as [? ?]. split; [by etrans|congruence].
    + done.
  - intros s e s'. unfold bind.
    destruct (deserialUint8_spec s) as [b rest s1 Hc Hs1 He|].
    + destruct (Hk b) as [[_ Hpp]|(e0 & -> & Hb)].
      * intros Hka Hmal.
        destruct (Hpp s1 e s' Hka Hmal) as (c & b' & Hc' & Hb').
        exists (b :: c), b'. split; [|done]. by rewrite Hc, <- Hs1, Hc'.
      * intros [= <- <-] _. exists [], b. split; [|done]. by rewrite Hc, Hs1.
    + intros [= <- <-] (tag & [?|[?|?]]); discriminate.
Qed.

Lemma reports_tags_optionFn {T} (d : Deserial T) :
  reports_tags d → reports_tags (deserialOptionFn d).
Proof.
  intros Hd. apply reports_tags_switch. intros b.
  destruct (OptionTag.of_N (Byte.to_N b)) as [[]|] eqn:Ht.
  - left. close_reads reports_tags_Closed_reads.
  - left. close_reads reports_tags_Closed_reads.
  - right. eexists. split; [done|]. right. right. split; [done|].
    by apply OptionTag_of_N_None.
Qed.

Lemma FieldsTag_of_N_None tag : FieldsTag.of_N tag = None ↔ 2 < tag.
Proof.
  split.
  - destruct tag as [|[[p|p|]|[p|p|]|]]; simpl; try done; lia.
  - destruct tag as [|[[p|p|]|[p|p|]|]]; simpl; try done; lia.
Qed.

Lemma reports_tags_fuel fuel :
  reports_tags (deserialType_fuel fuel)
  ∧ reports_tags (deserialFields_fuel fuel).
Proof.
  pose proof reports_tags_Closed_reads as HP.
  induction fuel as [|fuel [IHT IHF]].
  { split; (split; [by intros s|by intros s e s' [=]]). }
  rewrite deserialType_fuel_S, deserialFields_fuel_S.
  split; apply reports_tags_switch; intros b.
  - unfold deserialType_cases.
    destruct (TypeTag.of_N (Byte.to_N b)) as [t|] eqn:Ht.
    + left. destruct t; close_reads HP.
      apply (reads_arrayFn _ HP), (reads_tupleFn _ HP); [|done].
      apply (reads_string _ HP).
    + right. eexists. split; [done|]. left. split; [done|].
      by apply TypeTag_of_N_None.
  - unfold deserialFields_cases.
    destruct (FieldsTag.of_N (Byte.to_N b)) as [t|] eqn:Ht.
    + left. destruct t; close_reads HP.
      * apply (reads_arrayFn _ HP), (reads_tupleFn _ HP); [|done].
        apply (reads_string _ HP).
      * by apply (reads_arrayFn _ HP).
    + right. eexists. split; [done|]. right. left. split; [done|].
      by apply FieldsTag_of_N_None.
Qed.

(** When a decoder of the grammar throws an unsupported-tag error, the tag
    the error reports is the last byte taken off the stream: the stream is
    left right behind the offending byte, which is greater than 26 for a
    type tag, 2 for a fields tag and 1 for an option tag. *)
Theorem unsupported_tag_is_the_last_byte_read :
  pinpoints_tag deserialType
  ∧ pinpoints_tag deserialFields
  ∧ pinpoints_tag deserialContract
  ∧ pinpoints_tag deserialModule.
Proof.
  pose proof reports_tags_Closed_reads as HP.
  assert (reports_tags deserialType) as HT.
  { split; [apply consumes_prefix_deserialType|].
    intros s e s'. apply reports_tags_fuel. }
  assert (reports_tags deserialContract) as HCon.
  { unfold deserialContract. close_reads HP.
    - by apply reports_tags_optionFn.
    - by apply reports_tags_optionFn.
    - apply (reads_mapFn _ HP); [|done]. apply (reads_string _ HP). }
  split_and!.
  - apply HT.
  - intros s e s'. apply reports_tags_fuel.
  - apply HCon.
  - apply (reads_mapFn _ HP _ _ deserialString deserialContract); [|done].
    apply (reads_string _ HP).
Qed.

(** A module whose one contract has a state type that is a pair with the
    tag 99 in second place. *)
Lemma unsupported_tag_is_the_last_byte_read_witness :
  ∃ c b,
    content (delivered [[x01; x00; x00; x00; x01; x00; x00; x00; x61;
                         x01; x0f; x00; x63; x00; x00]])
    = c ++ b :: content (mkReadable [[x00; x00]] false)
    ∧ offending_tag (Error_unsupported_type_tag 99) b.
Proof.
  destruct unsupported_tag_is_the_last_byte_read as (_ & _ & _ & HM).
  apply (HM (delivered [[x01; x00; x00; x00; x01; x00; x00; x00; x61;
                         x01; x0f; x00; x63; x00; x00]])).
  - reflexivity.
  - exists 99. by left.
Defined.

(** ** Decoded values have the declared shape *)

Lemma Runs_returns {T} (Q : T → Prop) (d : Deserial T) n s xs s' :
  returns_only Q d → Runs d n s xs s' → Forall Q xs.
Proof.
  intros Hd Hr. induction Hr as [|n s x s1 xs s2 Hx _ IH]; [done|].
  constructor; [by eapply Hd|done].
Qed.

Lemma arrayFn_returns {T} (Q : T → Prop) (d : Deserial T) :
  returns_only Q d →
  returns_only (fun xs => N.of_nat (length xs) < 2 ^ 32 ∧ Forall Q xs)
    (deserialArrayFn d).
Proof.
  intros Hd s xs s' H. apply arrayFn_Return_inv in H as (L & s1 & Hu & Hr).
  split; [|by eapply Runs_returns].
  apply Runs_length in Hr. rewrite Hr, N2Nat.id.
  destruct (deserialUint32_inv _ _ _ Hu) as (b0 & b1 & b2 & b3 & _ & -> & _).
  apply uint32LE_digits.
Qed.

Lemma named_returns {T} (Q : T → Prop) (d : Deserial T) :
  returns_only Q d →
  returns_only (fun p => Q p.2) (deserialTupleFn deserialString d).
Proof.
  intros Hd s [name v] s' H. apply tupleFn_Return in H as (s1 & _ & Hv).
  by eapply Hd.
Qed.

Lemma forallb_named {T} (f : T → bool) (xs : list (JSString * T)) :
  Forall (fun p => f p.2 = true) xs →
  forallb (fun p => any_name p.1 && f p.2) xs = true.
Proof.
  intros H. apply forallb_forall. intros p Hp.
  rewrite Forall_forall in H. apply list_elem_of_In in Hp. by apply H.
Qed.

Lemma wf_fuel fuel :
  returns_only (fun t => Type_wf any_name t = true) (deserialType_fuel fuel)
  ∧ returns_only (fun f => Fields_wf any_name f = true)
      (deserialFields_fuel fuel).
Proof.
  induction fuel as [|fuel [IHT IHF]]; [by split|].
  rewrite deserialType_fuel_S, deserialFields_fuel_S.
  split; intros s v s' H; apply bind_Return_inv in H as (tag & s1 & _ & H).
  - unfold deserialType_cases in H.
    destruct (TypeTag.of_N tag) as [[]|]; try discriminate;
      repeat match goal with
        | H : (_ <- _ ;; _) _ = (Return _, _) |- _ =>
            apply bind_Return_inv in H as (? & ? & ? & H)
        | H : ret _ _ = (Return _, _) |- _ => injection H as <- <-
        | H : deserialType_fuel fuel _ = (Return _, _) |- _ => apply IHT in H
        | H : deserialFields_fuel fuel _ = (Return _, _) |- _ =>
            apply IHF in H
        | H : deserialUint8 _ = (Return _, _) |- _ =>
            apply deserialUint8_inv in H as (? & _ & -> & _)
        | H : deserialUint32 _ = (Return _, _) |- _ =>
            apply deserialUint32_inv in H as (? & ? & ? & ? & _ & -> & _)
        | H : deserialArrayFn _ _ = (Return _, _) |- _ =>
            apply (arrayFn_returns _ _ (named_returns _ _ IHF)) in H
              as [? ?%forallb_named]
        end; simpl in *;
      repeat match goal with
        | b : byte |- _ =>
            lazymatch goal with
            | H : Byte.to_N b ≤ 255 |- _ => fail
            | _ => pose proof (Byte.to_N_bounded b)
            end
        end;
      rewrite ?andb_true_iff, ?N.leb_le, ?N.ltb_lt;
      try done; try (split_and?; try done; apply uint32LE_digits).
  - unfold deserialFields_cases in H.
    destruct (FieldsTag.of_N tag) as [[]|]; try discriminate;
      repeat match goal with
        | H : (_ <- _ ;; _) _ = (Return _, _) |- _ =>
            apply bind_Return_inv in H as (? & ? & ? & H)
        | H : ret _ _ = (Return _, _) |- _ => injection H as <- <-
        | H : deserialArrayFn (deserialTupleFn _ _) _ = (Return _, _) |- _ =>
            apply (arrayFn_returns _ _ (named_returns _ _ IHT)) in H
              as [? ?%forallb_named]
        | H : deserialArrayFn _ _ = (Return _, _) |- _ =>
            apply (arrayFn_returns _ _ IHT) in H as [? ?]
        end; simpl in *; rewrite ?andb_true_iff, ?N.ltb_lt; try done.
    split; [done|]. apply forallb_forall. intros t Ht.
    match goal with H : Forall _ _ |- _ => rewrite Forall_forall in H;
      apply H end. by apply list_elem_of_In.
Qed.

Lemma Record_of_entries_elem {K} `{Countable K} {V} (kvs : list (K * V)) k v :
  Record_of_entries kvs !! k = Some v → (k, v) ∈ kvs.
Proof.
  unfold Record_of_entries. rewrite lookup_foldl_insert.
  intros [(l1 & l2 & -> & _)|[_ Hl]].
  - apply elem_of_app. right. by left.
  - by rewrite lookup_empty in Hl.
Qed.

Lemma size_foldl_insert {K} `{Countable K} {V} (kvs : list (K * V)) :
  ∀ obj : gmap K V,
  (size (foldl (fun obj kv => <[kv.1 := kv.2]> obj) obj kvs)
   ≤ size obj + length kvs)%nat.
Proof.
  induction kvs as [|[k v] kvs IH]; intros obj; simpl; [lia|].
  etrans; [apply IH|]. rewrite map_size_insert.
  destruct (obj !! k); unfold id; lia.
Qed.

Lemma tupleFn_returns {A B} (Q : B → Prop) (dl : Deserial A)
    (dr : Deserial B) :
  returns_only Q dr → returns_only (fun p => Q p.2) (deserialTupleFn dl dr).
Proof.
  intros Hd s [a b] s' H. apply tupleFn_Return in H as (s1 & _ & Hv).
  by eapply Hd.
Qed.

Lemma mapFn_returns {K} `{Countable K} {V} (Q : V → Prop)
    (dk : Deserial K) (dv : Deserial V) :
  returns_only Q dv →
  returns_only
    (fun m => N.of_nat (size m) < 2 ^ 32 ∧ map_Forall (fun _ v => Q v) m)
    (deserialMapFn dk dv).
Proof.
  intros Hd s m s' Hm. apply bind_Return_inv in Hm as (L & s1 & Hu & Hl).
  apply map_loop_Return in Hl as (kvs & Hr & ->).
  pose proof (Runs_length _ _ _ _ _ Hr) as Hlen.
  apply (Runs_returns _ _ _ _ _ _ (tupleFn_returns Q dk dv Hd)) in Hr.
  split.
  - destruct (deserialUint32_inv _ _ _ Hu) as (b0 & b1 & b2 & b3 & _ & -> & _).
    pose proof (uint32LE_digits b0 b1 b2 b3) as [Hlt _].
    pose proof (size_foldl_insert kvs (∅ : gmap K V)) as Hs.
    rewrite map_size_empty in Hs. lia.
  - intros k v Hk. apply Record_of_entries_elem in Hk.
    rewrite Forall_forall in Hr. by apply (Hr (k, v)).
Qed.

Lemma optionFn_returns {T} (Q : T → Prop) (d : Deserial T) :
  returns_only Q d →
  returns_only (from_option Q True) (deserialOptionFn d).
Proof.
  intros Hd s [v|] s' H; [|done]. simpl.
  apply bind_Return_inv in H as (tag & s1 & _ & H).
  destruct (OptionTag.of_N tag) as [[]|]; try discriminate.
  apply bind_Return_inv in H as (x & s2 & Hx & [= <- <-]). by eapply Hd.
Qed.

Lemma forallb_entries {V} (f : V → bool) (m : gmap JSString V) :
  map_Forall (fun _ v => f v = true) m →
  forallb (fun kv => any_name kv.1 && f kv.2) (map_to_list m) = true.
Proof.
  intros Hm. apply forallb_forall. intros [k v] Hkv. simpl.
  apply list_elem_of_In, elem_of_map_to_list in Hkv. by eapply Hm.
Qed.

(** What a decoder returns has the shape its TypeScript type declares, as
    far as the numbers go: a [typeTag] fits the alternative it stands in,
    every [sizeLength] is a byte, every [size] and every array or object
    holds fewer than 2^32 entries. (That the [sizeLength] of a string is
    [SizeLength.U32] is not part of it.) *)
Theorem decoded_values_are_well_formed :
  returns_only (fun t => Type_wf any_name t = true) deserialType
  ∧ returns_only (fun f => Fields_wf any_name f = true) deserialFields
  ∧ returns_only (fun c => Contract_wf any_name c = true) deserialContract
  ∧ returns_only (fun m => Module_wf any_name m = true) deserialModule.
Proof.
  assert (returns_only (fun t => Type_wf any_name t = true) deserialType)
    as HT by (intros s; apply wf_fuel).
  assert (returns_only (fun c => Contract_wf any_name c = true)
            deserialContract) as HC.
  { intros s c s' H. unfold deserialContract in H.
    apply bind_Return_inv in H as (st & s1 & Hst & H).
    apply bind_Return_inv in H as (ini & s2 & Hini & H).
    apply bind_Return_inv in H as (rcv & s3 & Hrcv & [= <- <-]).
    apply (optionFn_returns _ _ HT) in Hst, Hini.
    apply (mapFn_returns _ _ _ HT) in Hrcv as [Hsz Hall].
    unfold Contract_wf. simpl. rewrite !andb_true_iff. split_and!.
    - by destruct st.
    - by destruct ini.
    - by apply N.ltb_lt.
    - by apply forallb_entries. }
  split_and!; [done|intros s; apply wf_fuel|done|].
  intros s m s' H. apply (mapFn_returns _ _ _ HC) in H as [Hsz Hall].
  unfold Module_wf. rewrite andb_true_iff. split; [by apply N.ltb_lt|].
  by apply forallb_entries.
Qed.

Lemma decoded_values_are_well_formed_witness :
  Type_wf any_name
    (Type_ListSet TypeTag.Set_ 255
       (Type_Array 3 (Type_String TypeTag.ReceiveName 0))) = true.
Proof.
  destruct decoded_values_are_well_formed as (HT & _).
  apply (HT (delivered [[x11; xff; x13; x03; x00; x00; x00; x1a; x00]])
            _ (mkReadable [] false)).
  reflexivity.
Defined.

(** ** Bytes, numbers and text *)


Lemma Uint8Array_from_to_N bytes :
  Uint8Array_from (map Byte.to_N bytes) = bytes.
Proof.
  unfold Uint8Array_from. rewrite map_map.
  rewrite <- (map_id bytes) at 2. apply map_ext. intros b.
  pose proof (Byte.to_N_bounded b).
  rewrite N.mod_small by lia. by rewrite Byte.of_to_N.
Qed.

(** [n] bytes in a row, read one by one. *)
Lemma Runs_deserialUint8 bytes : ∀ s rest,
  content s = bytes ++ rest →
  ∃ s', Runs deserialUint8 (length bytes) s (map Byte.to_N bytes) s'
        ∧ content s' = rest ∧ ended s' = ended s.
Proof.
  induction bytes as [|b bytes IH]; intros s rest Hc; simpl.
  - exists s. split; [constructor|done].
  - destruct (deserialUint8_Return s b (bytes ++ rest) Hc)
      as (s1 & Hu & Hc1 & He1).
    destruct (IH s1 rest Hc1) as (s' & Hr & ? & ?).
    exists s'. split; [by econstructor|]. split; [done|congruence].
Qed.

(** Fewer than [n] bytes: the reads take what there is and the next one
    finds nothing. *)
Lemma Aborts_deserialUint8 bytes : ∀ n s,
  content s = bytes → (length bytes < n)%nat →
  ∃ s', Aborts deserialUint8 n s (length bytes) TypeError_null s'
        ∧ content s' = [] ∧ ended s' = ended s.
Proof.
  induction bytes as [|b bytes IH]; intros n s Hc Hn; simpl in *.
  - destruct n as [|n]; [lia|]. exists s. split; [|done]. constructor.
    destruct (deserialUint8_spec s) as [b rest s' Hc'|]; [|done].
    by rewrite Hc in Hc'.
  - destruct n as [|n]; [lia|].
    destruct (deserialUint8_Return s b bytes Hc) as (s1 & Hu & Hc1 & He1).
    destruct (IH n s1 Hc1) as (s' & Ha & ? & ?); [lia|].
    exists s'. split; [by econstructor|]. split; [done|congruence].
Qed.

(** [deserialString] reads a length [L] and then [L] bytes, whatever they
    are, and returns what [TextDecoder] makes of them; no byte makes it
    throw. When fewer than [L] bytes are buffered behind the length it takes
    them all and throws the TypeError of a read that got [null]. Bytes below
    128 come out as the characters with those codes. *)
Theorem deserialString_reads_L_bytes s L s1 :
  deserialUint32 s = (Return L, s1) →
  (∀ bytes rest,
     content s1 = bytes ++ rest → length bytes = N.to_nat L →
     ∃ s2, deserialString s = (Return (TextDecoder_decode bytes), s2)
           ∧ content s2 = rest ∧ ended s2 = ended s)
  ∧ ((length (content s1) < N.to_nat L)%nat →
     ∃ s2, deserialString s = (Throw TypeError_null, s2)
           ∧ content s2 = [] ∧ ended s2 = ended s)
  ∧ (∀ bytes, Forall (fun b => Byte.to_N b < 128) bytes →
       TextDecoder_decode bytes = map Byte.to_N bytes).
Proof.
  intros Hu.
  destruct (deserialUint32_inv _ _ _ Hu) as (_ & _ & _ & _ & _ & _ & He1).
  split_and!.
  - intros bytes rest Hc Hlen.
    destruct (Runs_deserialUint8 bytes s1 rest Hc) as (s2 & Hr & Hc2 & He2).
    exists s2. split; [|split; [done|congruence]].
    unfold deserialString. unfold bind at 1.
    assert (deserialArrayFn deserialUint8 s
            = (Return (map Byte.to_N bytes), s2)) as ->.
    { unfold deserialArrayFn, bind. rewrite Hu. apply array_loop_Return.
      exists (map Byte.to_N bytes). split; [done|]. by rewrite <- Hlen. }
    by rewrite Uint8Array_from_to_N.
  - intros Hlt.
    destruct (Aborts_deserialUint8 (content s1) (N.to_nat L) s1 eq_refl Hlt)
      as (s2 & Ha & Hc2 & He2).
    exists s2. split; [|split; [done|congruence]].
    unfold deserialString. unfold bind at 1.
    assert (deserialArrayFn deserialUint8 s = (Throw TypeError_null, s2))
      as ->; [|done].
    unfold deserialArrayFn, bind. rewrite Hu. apply array_loop_Throw.
    by eexists.
  - intros bytes Hb. unfold TextDecoder_decode.
    assert (utf8_run utf8_init bytes = map Byte.to_N bytes) as ->.
    { induction Hb as [|b bytes Hb _ IH]; [done|]. simpl.
      unfold utf8_handler, utf8_lead. simpl.
      destruct (N.leb_spec (Byte.to_N b) 0x7F) as [_|?]; [|lia].
      simpl. by rewrite IH. }
    destruct Hb as [|b bytes Hb _]; [done|]. simpl.
    destruct (N.eqb_spec (Byte.to_N b) 0xFEFF); [lia|done].
Qed.

(** The name "ab", and a name of five bytes of which two arrived. *)
Lemma deserialString_reads_L_bytes_witness :
  (∃ s2, deserialString (delivered [[x02; x00; x00; x00; x61; x62; xff]])
         = (Return (TextDecoder_decode [x61; x62]), s2)
         ∧ content s2 = [xff] ∧ ended s2 = false)
  ∧ (∃ s2, deserialString (delivered [[x05; x00; x00; x00; x61; x62]])
           = (Throw TypeError_null, s2)
           ∧ content s2 = [] ∧ ended s2 = false).
Proof.
  split.
  - destruct (deserialString_reads_L_bytes
                (delivered [[x02; x00; x00; x00; x61; x62; xff]]) 2
                (mkReadable [[x61; x62; xff]] false) eq_refl) as (H & _).
    by apply (H [x61; x62] [xff]).
  - destruct (deserialString_reads_L_bytes
                (delivered [[x05; x00; x00; x00; x61; x62]]) 5
                (mkReadable [[x61; x62]] false) eq_refl) as (_ & H & _).
    apply H. vm_compute. lia.
Defined.

(** ** UTF-8 *)













(** ** What the decoders accept *)























(** ** Which exceptions a decoder throws *)






(** ** Worked inputs *)

Example empty_module :
  deserialModule (delivered [[x00; x00; x00; x00]])
  = (Return ∅, mkReadable [] false).
Proof. by vm_compute. Qed.

Example single_u8_tag :
  deserialType (delivered [[x02]])
  = (Return (Type_scalar TypeTag.U8), mkReadable [] false).
Proof. by vm_compute. Qed.

Example pair_of_unit_and_u8 :
  deserialType (delivered [[x0f; x00; x02]])
  = (Return (Type_Pair (Type_scalar TypeTag.Unit) (Type_scalar TypeTag.U8)),
     mkReadable [] false).
Proof. by vm_compute. Qed.

Example u32_in_two_deliveries :
  deserialUint32 (delivered [[x78; x56]; [x34; x12]])
  = (Return 0x12345678, mkReadable [] false).
Proof. by vm_compute. Qed.

Example u32_in_two_deliveries_with_a_rest :
  deserialUint32 (delivered [[x78; x56; x34]; [x12; xff]; [xee]])
  = (Return 0x12345678, mkReadable [[xff]; [xee]] false).
Proof. by vm_compute. Qed.

Example enum_keeps_variant_order :
  deserialType
    (delivered [[x15; x02; x00; x00; x00;
                 x01; x00; x00; x00; x42; x02;
                 x01; x00; x00; x00; x41; x02]])
  = (Return (Type_Enum [(js "B", Fields_None); (js "A", Fields_None)]),
     mkReadable [] false).
Proof. by vm_compute. Qed.

Example struct_with_a_named_field :
  deserialType
    (delivered [[x14; x00; x01; x00; x00; x00;
                 x01; x00; x00; x00; x78; x13; x03; x00; x00; x00; x02]])
  = (Return (Type_Struct
               (Fields_Named
                  [(js "x", Type_Array 3 (Type_scalar TypeTag.U8))])),
     mkReadable [] false).
Proof. by vm_compute. Qed.

Example text_decoder_strips_and_replaces :
  TextDecoder_decode [xef; xbb; xbf; x61; xc3; xa9; xff; xe2; x82]
  = [0x61; 0xE9; 0xFFFD; 0xFFFD].
Proof. by vm_compute. Qed.

Example second_contract_of_a_name_wins :
  deserialModule
    (delivered [[x02; x00; x00; x00;
                 x01; x00; x00; x00; x61; x00; x00; x00; x00; x00; x00;
                 x01; x00; x00; x00; x61; x01; x01; x00; x00; x00; x00; x00]])
  = (Return {[ js "a" := mkContract (Some (Type_scalar TypeTag.Bool)) None ∅ ]},
     mkReadable [] false).
Proof. by vm_compute. Qed.
